(** * build-site.js: the document clean-up passes of the Lodash site builder

    A shallow embedding of [lib/main/build-site.js].  The Cheerio document is
    a forest of DOM nodes; every pass of the script ([autoLink],
    [renameLodashId], [removeHorizontalRules], [removeMarkyAttributes],
    [repairMarkyHeaders], [tidyHighlights]) is a function on that forest, and
    [build] threads the forest through them in the order of the script.

    Conventions of the embedding.
    - The nodes at the top of the document have no parent.  Selectors with
      a sibling combinator ([+], [~]) or a child combinator ([>]) look at
      the parent of a node and match no node at the top.
    - A Cheerio selection is collected before the callback of [.each] runs and
      is visited in document order; a node the callback detaches keeps being
      visited, but what is done to it no longer reaches the document.
    - [x.replaceWith(y.html())] serialises the children of [y] and parses the
      string again: the document receives fresh copies of the children, so
      elements of the running selection that sat below [y] are not the copies.
      A copy differs from the original where serialising loses something:
      adjacent text nodes come back as one, empty text nodes do not come
      back, and what stood below an element without end tag comes back
      after it ([reparse]).  Nesting that the parser would repair is taken
      not to occur.
    - Where the script parses a string that is not the serialisation of
      nodes (the text of a span, the rewritten emphasis tags), the parser is
      a parameter.
    - The script throws only in [tidyHighlights]; [Threw] stands for the
      [TypeError], and [Beyond] for a run that this embedding does not
      follow to its end. *)

From Stdlib Require Import List String Ascii Bool Arith NArith Lia.
Import ListNotations.
Open Scope string_scope.
Open Scope bool_scope.

(** ** DOM nodes *)

Definition attrs := list (string * string).

#[warnings="-register-all"]
Inductive node : Type :=
| Text (data : string)
| Elem (name : string) (attribs : attrs) (children : list node).

Definition forest := list node.

Section NodeInd.
Variable P : node -> Prop.
Hypothesis HText : forall s, P (Text s).
Hypothesis HElem : forall t a ch, Forall P ch -> P (Elem t a ch).

Fixpoint node_ind' (n : node) : P n :=
  match n with
  | Text s => HText s
  | Elem t a ch =>
      HElem t a ch
        ((fix go (l : list node) : Forall P l :=
            match l with
            | [] => Forall_nil P
            | x :: r => Forall_cons x (node_ind' x) (go r)
            end) ch)
  end.
End NodeInd.

Definition isTag (n : node) : bool :=
  match n with Elem _ _ _ => true | Text _ => false end.

Definition nameIs (t : string) (n : node) : bool :=
  match n with Elem u _ _ => u =? t | Text _ => false end.

Definition childrenOf (n : node) : forest :=
  match n with Elem _ _ ch => ch | Text _ => [] end.

(** ** Characters and strings *)

Definition between (lo hi : nat) (c : ascii) : bool :=
  Nat.leb lo (nat_of_ascii c) && Nat.leb (nat_of_ascii c) hi.

(** [\w] of a JavaScript regular expression: [A-Za-z0-9_]. *)
Definition isWordChar (c : ascii) : bool :=
  between 48 57 c || between 65 90 c || between 97 122 c || Nat.eqb (nat_of_ascii c) 95.

(** [\s] restricted to the one-byte characters: TAB, LF, VT, FF, CR, SPACE. *)
Definition isSpace (c : ascii) : bool :=
  between 9 13 c || Nat.eqb (nat_of_ascii c) 32.

Fixpoint allChars (p : ascii -> bool) (s : string) : bool :=
  match s with
  | EmptyString => true
  | String c r => p c && allChars p r
  end.

(** [s.split(sep)] for a one-character separator: never an empty list. *)
Fixpoint split (sep : ascii) (s : string) : list string :=
  match s with
  | EmptyString => [EmptyString]
  | String c r =>
      if Ascii.eqb c sep then EmptyString :: split sep r
      else match split sep r with
           | [] => [String c EmptyString]
           | w :: ws => String c w :: ws
           end
  end.

(** Class tokens as a selector sees them: maximal runs of non-space. *)
Fixpoint tokensAux (cur : string) (s : string) : list string :=
  match s with
  | EmptyString => if cur =? "" then [] else [cur]
  | String c r =>
      if isSpace c
      then (if cur =? "" then tokensAux "" r else cur :: tokensAux "" r)
      else tokensAux (cur ++ String c EmptyString) r
  end.

Definition tokens (s : string) : list string := tokensAux "" s.

Definition strIn (x : string) (l : list string) : bool :=
  existsb (String.eqb x) l.

Definition join (sep : string) (l : list string) : string :=
  match l with
  | [] => ""
  | x :: r => fold_left (fun acc y => acc ++ sep ++ y) r x
  end.

(** ** Attributes: a JavaScript object, one value per key *)

Fixpoint getAttr (k : string) (a : attrs) : option string :=
  match a with
  | [] => None
  | (k', v) :: r => if k' =? k then Some v else getAttr k r
  end.

Definition removeAttr (k : string) (a : attrs) : attrs :=
  filter (fun kv => negb (fst kv =? k)) a.

Fixpoint setAttr (k v : string) (a : attrs) : attrs :=
  match a with
  | [] => [(k, v)]
  | (k', v') :: r => if k' =? k then (k, v) :: r else (k', v') :: setAttr k v r
  end.

(** [.attr(k, v)] with [v] a string or [null]. *)
Definition attrSet (k : string) (v : option string) (a : attrs) : attrs :=
  match v with
  | Some s => setAttr k s a
  | None => removeAttr k a
  end.

Definition attrOf (k : string) (n : node) : option string :=
  match n with Elem _ a _ => getAttr k a | Text _ => None end.

(** The selector [.cls] and [[class~="cls"]]. *)
Definition hasClassA (cls : string) (a : attrs) : bool :=
  match getAttr "class" a with
  | Some v => strIn cls (tokens v)
  | None => false
  end.

Definition hasClass (cls : string) (n : node) : bool :=
  match n with Elem _ a _ => hasClassA cls a | Text _ => false end.

(** ** Serialisation: [.html()] and [.text()] *)

Definition dquote : ascii := "034"%char.

Definition hexDigit (d : N) : ascii :=
  nth (N.to_nat d)
      ["0"; "1"; "2"; "3"; "4"; "5"; "6"; "7"; "8"; "9";
       "A"; "B"; "C"; "D"; "E"; "F"]%char "0"%char.

(** [n.toString(16).toUpperCase()], for the code points of Unicode. *)
Fixpoint hexAux (fuel : nat) (n : N) (acc : string) : string :=
  match fuel with
  | O => acc
  | S f =>
      let acc' := String (hexDigit (N.modulo n 16)) acc in
      if N.eqb (N.div n 16) 0 then acc' else hexAux f (N.div n 16) acc'
  end.

Definition hexOf (n : N) : string := hexAux 8 n "".

(** The numeric entity of a character outside ASCII. *)
Definition entity (cp : N) : string := "&#x" ++ hexOf cp ++ ";".

Definition replacementChar : N := 65533.

(** [entities.encodeXML]: the five characters of XML by name, every
    character outside ASCII by number.  Strings are UTF-8 here: [pending]
    counts the bytes still to come of the character whose bits so far are
    [cp]. *)
Fixpoint encodeAux (pending : nat) (cp : N) (s : string) : string :=
  match s with
  | EmptyString =>
      match pending with O => EmptyString | S _ => entity replacementChar end
  | String c r =>
      let n := N_of_ascii c in
      let fresh :=
        if N.ltb n 128 then
          (if Ascii.eqb c "&" then "&amp;"
           else if Ascii.eqb c "<" then "&lt;"
           else if Ascii.eqb c ">" then "&gt;"
           else if Ascii.eqb c dquote then "&quot;"
           else if Ascii.eqb c "'" then "&apos;"
           else String c EmptyString) ++ encodeAux 0 0 r
        else if N.leb 192 n && N.ltb n 224 then encodeAux 1 (n - 192) r
        else if N.leb 224 n && N.ltb n 240 then encodeAux 2 (n - 224) r
        else if N.leb 240 n && N.ltb n 248 then encodeAux 3 (n - 240) r
        else entity replacementChar ++ encodeAux 0 0 r in
      match pending with
      | O => fresh
      | S k =>
          if N.leb 128 n && N.ltb n 192 then
            let cp' := (cp * 64 + (n - 128))%N in
            match k with
            | O => entity cp' ++ encodeAux 0 0 r
            | S _ => encodeAux k cp' r
            end
          else entity replacementChar ++ fresh
      end
  end.

Definition escape (s : string) : string := encodeAux 0 0 s.

Definition booleanAttributes : list string :=
  ["allowfullscreen"; "async"; "autofocus"; "autoplay"; "checked"; "controls";
   "default"; "defer"; "disabled"; "hidden"; "ismap"; "loop"; "multiple";
   "muted"; "open"; "readonly"; "required"; "reversed"; "scoped"; "seamless";
   "selected"; "typemustmatch"].

(** The attributes of a start tag, each after a space. *)
Definition attrsHtml (a : attrs) : string :=
  fold_right (fun kv acc =>
                " " ++ fst kv
                ++ (if (snd kv =? "") && strIn (fst kv) booleanAttributes then ""
                    else "=" ++ String dquote (escape (snd kv)) ++ String dquote "")
                ++ acc) "" a.

(** The elements written without end tag. *)
Definition voidTags : list string :=
  ["area"; "base"; "basefont"; "br"; "col"; "command"; "embed"; "frame"; "hr";
   "img"; "input"; "isindex"; "keygen"; "link"; "meta"; "param"; "source";
   "track"; "wbr"].

(** The elements whose text is written as it is. *)
Definition unencodedTags : list string :=
  ["style"; "script"; "xmp"; "iframe"; "noembed"; "noframes"; "plaintext";
   "noscript"].

(** [raw] tells that the parent is one of [unencodedTags]. *)
Fixpoint outerHtml (raw : bool) (n : node) : string :=
  match n with
  | Text s => if raw then s else escape s
  | Elem t a ch =>
      "<" ++ t ++ attrsHtml a ++ ">" ++
      (fix go (l : list node) : string :=
         match l with
         | [] => ""
         | x :: r => outerHtml (strIn t unencodedTags) x ++ go r
         end) ch
      ++ (if strIn t voidTags then "" else "</" ++ t ++ ">")
  end.

(** [.html()] of an element that is none of [unencodedTags], and [$.html()]. *)
Fixpoint html (ch : forest) : string :=
  match ch with
  | [] => ""
  | x :: r => outerHtml false x ++ html r
  end.

(** [.html()] of an element named [t]. *)
Definition innerHtml (t : string) (ch : forest) : string :=
  if strIn t unencodedTags
  then fold_right (fun x acc => outerHtml true x ++ acc) "" ch
  else html ch.

Fixpoint textOf (n : node) : string :=
  match n with
  | Text s => s
  | Elem _ _ ch =>
      (fix go (l : list node) : string :=
         match l with
         | [] => ""
         | x :: r => textOf x ++ go r
         end) ch
  end.

Fixpoint text (ch : forest) : string :=
  match ch with
  | [] => ""
  | x :: r => textOf x ++ text r
  end.

(** ** What comes back from [replaceWith(x.html())] *)

(** Adjacent text nodes as one node; no empty text node. *)
Fixpoint mergeTexts (l : forest) : forest :=
  match l with
  | [] => []
  | Text s :: r =>
      if s =? "" then mergeTexts r
      else match mergeTexts r with
           | Text s' :: r' => Text (s ++ s') :: r'
           | r' => Text s :: r'
           end
  | x :: r => x :: mergeTexts r
  end.

Fixpoint reparseNode (n : node) : forest :=
  match n with
  | Text _ => [n]
  | Elem t a ch =>
      let ch' := mergeTexts (flat_map reparseNode ch) in
      if strIn t voidTags then (Elem t a [] :: ch')%list else [Elem t a ch']
  end.

(** The nodes that parsing the serialisation of [ch] gives. *)
Definition reparse (ch : forest) : forest := mergeTexts (flat_map reparseNode ch).

(** ** autoLink *)

(** [/^_\.\w+$/.test(s)] *)
Definition isMethodRef (s : string) : bool :=
  match s with
  | String "_" (String "." r) => negb (r =? "") && allChars isWordChar r
  | _ => false
  end.

(** The template [<a href="#${ id }"><code>_.${ id }</code></a>], parsed. *)
Definition methodLink (id : string) : node :=
  Elem "a" [("href", "#" ++ id)] [Elem "code" [] [Text ("_." ++ id)]].

(** [html.split('.')[1]]; a missing element interpolates as [undefined]. *)
Definition methodId (h : string) : string := nth 1 (split "." h) "undefined".

(** [inDoc] records that an ancestor carries the class [doc-container]. *)
Fixpoint autoLinkNode (inDoc : bool) (n : node) : node :=
  match n with
  | Text _ => n
  | Elem t a ch =>
      if inDoc && (t =? "code") && isMethodRef (html ch)
      then methodLink (methodId (html ch))
      else Elem t a (map (autoLinkNode (inDoc || hasClassA "doc-container" a)) ch)
  end.

Definition autoLink (d : forest) : forest := map (autoLinkNode false) d.

(** ** Traversal helpers *)

(** The descendants of a list of siblings, in document order. *)
Fixpoint descendantsOf (n : node) : list node :=
  n :: match n with
       | Text _ => []
       | Elem _ _ ch =>
           (fix go (l : list node) : list node :=
              match l with
              | [] => []
              | x :: r => (descendantsOf x ++ go r)%list
              end) ch
       end.

Fixpoint descendants (ch : forest) : list node :=
  match ch with
  | [] => []
  | x :: r => (descendantsOf x ++ descendants r)%list
  end.

(** [$(sel).attr(...)]: the same update of the attributes of every element
    the selector [sel] accepts; [upd] holds both the test and the update. *)
Fixpoint mapAttrs (upd : attrs -> attrs) (n : node) : node :=
  match n with
  | Text _ => n
  | Elem t a ch => Elem t (upd a) (map (mapAttrs upd) ch)
  end.

(** ** renameLodashId *)

(** [$('#_').attr('id', 'lodash')] *)
Definition renameId (a : attrs) : attrs :=
  match getAttr "id" a with
  | Some v => if v =? "_" then attrSet "id" (Some "lodash") a else a
  | None => a
  end.

(** [$('[href="#_"]').attr('href', '#lodash')] *)
Definition renameHref (a : attrs) : attrs :=
  match getAttr "href" a with
  | Some v => if v =? "#_" then attrSet "href" (Some "#lodash") a else a
  | None => a
  end.

Definition renameLodashId (d : forest) : forest :=
  map (mapAttrs renameHref) (map (mapAttrs renameId) d).

(** ** removeHorizontalRules *)

(** [$('hr').remove()] *)
Fixpoint removeHrNode (n : node) : forest :=
  match n with
  | Text _ => [n]
  | Elem t a ch =>
      if t =? "hr" then [] else [Elem t a (flat_map removeHrNode ch)]
  end.

Definition removeHorizontalRules (d : forest) : forest :=
  flat_map removeHrNode d.

(** ** removeMarkyAttributes *)

(** [$('[id^="user-content-"]').attr('class', null).attr('id', null)] *)
Definition stripMarky (a : attrs) : attrs :=
  match getAttr "id" a with
  | Some v =>
      if prefix "user-content-" v
      then attrSet "id" None (attrSet "class" None a)
      else a
  | None => a
  end.

(** [:header:not(h3)] *)
Definition isHeaderNotH3 (t : string) : bool :=
  strIn t ["h1"; "h2"; "h4"; "h5"; "h6"].

(** [$(':header:not(h3) > a').each(... $a.replaceWith($a.html()))].
    [underHeader] tells that the parent is such a heading.  The anchor is
    replaced by a parsed copy of its content; anchors of the selection
    below it are detached with it, so the copy is left as it is. *)
Fixpoint unwrapHeaderLinks (underHeader : bool) (n : node) : forest :=
  match n with
  | Text _ => [n]
  | Elem t a ch =>
      if underHeader && (t =? "a") then reparse ch
      else [Elem t a (flat_map (unwrapHeaderLinks (isHeaderNotH3 t)) ch)]
  end.

Definition removeMarkyAttributes (d : forest) : forest :=
  flat_map (unwrapHeaderLinks false) (map (mapAttrs stripMarky) d).

(** ** repairMarkyHeaders *)

(** [:empty]: no element child and no text child with characters. *)
Definition isEmpty (n : node) : bool :=
  forallb (fun c => match c with Text s => s =? "" | Elem _ _ _ => false end)
          (childrenOf n).

Definition isEmptyP (n : node) : bool := nameIs "p" n && isEmpty n.

(** The next element sibling, given the siblings that follow. *)
Definition nextElement (after : forest) : option node := find isTag after.

Definition nextIsH3 (after : forest) : bool :=
  match nextElement after with
  | Some y => nameIs "h3" y
  | None => false
  end.

(** [$('p:empty + h3').prev().remove()] on one list of siblings: the
    selection is the [h3] elements whose previous element sibling is an empty
    [p]; [.prev()] is that [p]; it is removed.  [f] treats the kept nodes. *)
Definition dropLead (f : node -> node) : forest -> forest :=
  fix go (l : forest) : forest :=
    match l with
    | [] => []
    | x :: r => if isEmptyP x && nextIsH3 r then go r else f x :: go r
    end.

Fixpoint dropLeadNode (n : node) : node :=
  match n with
  | Text _ => n
  | Elem t a ch => Elem t a (dropLead dropLeadNode ch)
  end.

(** The nodes at the top have no parent and are not in the selection. *)
Definition removeLeadingParagraphs (d : forest) : forest :=
  map dropLeadNode d.

(** The loop test [node.name != 'h3' && node.name != 'p'], negated. *)
Definition isBoundary (n : node) : bool := nameIs "h3" n || nameIs "p" n.

(** [$p.prepend(x)] *)
Definition prependTo (xs : forest) (p : node) : node :=
  match p with
  | Elem t a ch => Elem t a (xs ++ ch)%list
  | Text _ => p
  end.

(** The loop
    [while ((node = node.prev) && node.name != 'h3' && node.name != 'p')
       $p.prepend(node.next)].
    [cur] is [node] before the step, [before] its previous siblings, nearest
    first, and [moved] the children prepended so far.  The result is the
    previous siblings that stay, nearest first, and the moved nodes. *)
Fixpoint walkBack (cur : node) (before : forest) (moved : forest)
  : forest * forest :=
  match before with
  | [] => ([cur], moved)
  | n :: before' =>
      if isBoundary n then (cur :: before, moved)
      else walkBack n before' (cur :: moved)
  end.

(** [$('h3 ~ p:empty').each(...)] on one list of siblings.  Each sibling
    comes with the flag [p:empty] taken when the selection was made; [seenH3]
    tells that an [h3] came earlier; [done] holds the siblings already
    passed, as the walks left them, nearest first.  Every sibling passed
    leaves [done] with at least one node, so that [this.prev] exists for a
    paragraph of the selection and the case of an empty [done] never
    comes up there. *)
Fixpoint walkSiblings (seenH3 : bool) (done : forest) (l : list (bool * node))
  : forest :=
  match l with
  | [] => rev done
  | (emptyP, x) :: r =>
      let seen := seenH3 || nameIs "h3" x in
      if emptyP && seenH3 then
        match done with
        | [] => walkSiblings seen [x] r
        | prev :: before =>
            let '(kept, moved) := walkBack prev before [] in
            walkSiblings seen (prependTo moved x :: kept) r
        end
      else walkSiblings seen (x :: done) r
  end.

Fixpoint fillTrailingNode (n : node) : node :=
  match n with
  | Text _ => n
  | Elem t a ch =>
      Elem t a (walkSiblings false []
                  (map (fun c => (isEmptyP c, fillTrailingNode c)) ch))
  end.

(** The nodes at the top have no parent and are not in the selection. *)
Definition fillTrailingParagraphs (d : forest) : forest :=
  map fillTrailingNode d.

(** [s.replace(/<\/?em>/g, '_')]; [skip] counts the characters of a tag
    already replaced. *)
Fixpoint replaceEmAux (skip : nat) (s : string) : string :=
  match s with
  | EmptyString => EmptyString
  | String c r =>
      match skip with
      | S k => replaceEmAux k r
      | O =>
          if prefix "<em>" s then "_" ++ replaceEmAux 3 r
          else if prefix "</em>" s then "_" ++ replaceEmAux 4 r
          else String c (replaceEmAux 0 r)
      end
  end.

Definition replaceEm (s : string) : string := replaceEmAux 0 s.

Section Parser.

(** Cheerio's HTML parser, for the one place where the script parses a
    string it has rewritten. *)
Variable parseHtml : string -> forest.

(** [$('h3 code em').parent().each(... $code.html(... replace ...))].
    [h3Above]: an ancestor is an [h3]; [inCode]: an ancestor is a [code]
    below an [h3]. *)
Fixpoint flattenEmNode (h3Above inCode : bool) (n : node) : node :=
  match n with
  | Text _ => n
  | Elem t a ch =>
      let code := inCode || (h3Above && (t =? "code")) in
      if code && existsb (nameIs "em") ch
      then Elem t a (parseHtml (replaceEm (innerHtml t ch)))
      else Elem t a (map (flattenEmNode (h3Above || (t =? "h3")) code) ch)
  end.

Definition flattenEmphasis (d : forest) : forest :=
  map (flattenEmNode false false) d.

Definition repairMarkyHeaders (d : forest) : forest :=
  flattenEmphasis (fillTrailingParagraphs (removeLeadingParagraphs d)).

End Parser.

(** ** tidyHighlights *)

Definition highlights (ext : string) : list string :=
  if ext =? "html" then ["string"]
  else if ext =? "js" then
    ["comment"; "console"; "delimiter"; "method"; "modifier"; "name";
     "numeric"; "string"; "support"; "type"]
  else [].

(** Values of a list without repetition, first occurrences kept. *)
Fixpoint uniq (seen : list string) (l : list string) : list string :=
  match l with
  | [] => []
  | x :: r => if strIn x seen then uniq seen r else x :: uniq (x :: seen) r
  end.

(** [_.intersection(xs, ys)]; an [undefined] second argument is [[]]. *)
Definition intersection (xs ys : list string) : list string :=
  uniq [] (filter (fun x => strIn x ys) xs).

Fixpoint contains (pat s : string) : bool :=
  prefix pat s || match s with
                  | EmptyString => false
                  | String _ r => contains pat r
                  end.

Fixpoint ltrim (s : string) : string :=
  match s with
  | EmptyString => EmptyString
  | String c r => if isSpace c then ltrim r else s
  end.

Fixpoint rtrim (s : string) : string :=
  match s with
  | EmptyString => EmptyString
  | String c r =>
      let r' := rtrim r in
      if isSpace c && (r' =? "") then EmptyString else String c r'
  end.

Definition trim (s : string) : string := rtrim (ltrim s).

(** Cheerio's [.addClass(value)] on one element. *)
Definition addClass (value : string) (a : attrs) : attrs :=
  if value =? "" then a
  else
    match getAttr "class" a with
    | Some (String c v) =>
        let className := String c v in
        setAttr "class"
          (trim (fold_left
                   (fun setClass name =>
                      if contains (" " ++ name ++ " ") setClass then setClass
                      else setClass ++ name ++ " ")
                   (tokens value) (" " ++ className ++ " ")))
          a
    | _ => setAttr "class" (trim (join " " (tokens value))) a
    end.

Definition isMarker (n : node) : bool := hasClass "source" n || hasClass "text" n.

(** [$parent.find('.source,.text').first().attr('class').split(' ').pop()];
    [None] when [.attr('class')] is [undefined] and [.split] throws. *)
Definition extOf (ch : forest) : option string :=
  match find isMarker (descendants ch) with
  | Some m =>
      match attrOf "class" m with
      | Some v => Some (last (split " " v) "")
      | None => None
      end
  | None => None
  end.

(** The callback of [$parent.find('[class]').each(...)]. *)
Definition whitelist (ext : string) (a : attrs) : attrs :=
  match getAttr "class" a with
  | Some v =>
      let attr := join " " (intersection (split " " v) (highlights ext)) in
      attrSet "class" (if attr =? "" then None else Some attr) a
  | None => a
  end.

(** [!$element.attr('class')] *)
Definition noClass (a : attrs) : bool :=
  match getAttr "class" a with
  | Some v => v =? ""
  | None => true
  end.

(** [:not([class])] *)
Definition classAbsent (a : attrs) : bool :=
  match getAttr "class" a with
  | Some _ => false
  | None => true
  end.

(** What a run gives: a value, the [TypeError] of the script, or a state
    that this embedding does not follow. *)
Inductive outcome (A : Type) : Type :=
| Returned (a : A)
| Threw
| Beyond.

Arguments Returned {A} a.
Arguments Threw {A}.
Arguments Beyond {A}.

Fixpoint mapO {A B : Type} (f : A -> outcome B) (l : list A) : outcome (list B) :=
  match l with
  | [] => Returned []
  | x :: r =>
      match f x with
      | Returned y =>
          match mapO f r with
          | Returned ys => Returned (y :: ys)
          | Threw => Threw
          | Beyond => Beyond
          end
      | Threw => Threw
      | Beyond => Beyond
      end
  end.

Definition isContainer (n : node) : bool := hasClass "highlight" n.


(** A descendant of [n] is a highlight container. *)
Definition holdsContainer (n : node) : bool :=
  existsb isContainer (descendants (childrenOf n)).

(** The children of an element during "Collapse nested spans".  [climb]
    tells that the element is a span that the loop replaces when it climbs
    to it; then the siblings after the child the loop came from are part of
    the copy as they are. *)
Definition collapseChildren (f : node -> forest * bool) (climb : bool)
  : forest -> forest * bool :=
  fix go (l : forest) : forest * bool :=
    match l with
    | [] => ([], false)
    | x :: r =>
        let '(xs, hit) := f x in
        if hit && climb then ((xs ++ r)%list, true)
        else let '(rs, h) := go r in ((xs ++ rs)%list, h)
    end.

(** "Collapse nested spans."  A span of the selection [span:not([class])]
    is replaced by a parsed copy of its content; the spans of the selection
    below it are detached with it.  A span the loop climbs to is replaced by
    a parsed copy of what it holds then. *)
Fixpoint collapseNode (n : node) : forest * bool :=
  match n with
  | Text _ => ([n], false)
  | Elem t a ch =>
      if (t =? "span") && classAbsent a then (reparse ch, true)
      else
        let '(ch', hit) := collapseChildren collapseNode ((t =? "span") && noClass a) ch in
        if hit then (reparse ch', true) else ([Elem t a ch'], false)
  end.

Definition collapseSpans (ch : forest) : forest :=
  flat_map (fun c => fst (collapseNode c)) ch.

(** "Collapse nested highlights", for one class: the parent of every
    element of [[class~=cls] > [class~=cls]] gets its own text as its only
    child. *)
Fixpoint dedupNode (cls : string) (n : node) : node :=
  match n with
  | Text _ => n
  | Elem t a ch =>
      if hasClassA cls a && existsb (hasClass cls) ch
      then Elem t a [Text (text ch)]
      else Elem t a (map (dedupNode cls) ch)
  end.

Definition dedupHighlights (n : node) : node :=
  dedupNode "string" (dedupNode "comment" n).

(** "Remove line indicators for single line snippets", on one child of the
    container. *)
Definition unwrapSingleLine (n : node) : node :=
  match n with
  | Elem t a ch =>
      if (t =? "pre") && Nat.eqb (List.length (filter (nameIs "div") ch)) 1
      then Elem t a (flat_map (fun c => if nameIs "div" c then reparse (childrenOf c)
                                        else [c]) ch)
      else n
  | Text _ => n
  end.

(** The container after [addClass(ext)] and the callback of
    [$parent.find('[class]').each(...)] on every descendant. *)
Definition whitelistContainer (ext : string) (n : node) : node :=
  match n with
  | Elem t a ch => Elem t (addClass ext a) (map (mapAttrs (whitelist ext)) ch)
  | Text _ => n
  end.

Section Highlights.

(** Cheerio's HTML parser, for the text handed to [replaceWith]. *)
Variable parseHtml : string -> forest.

(** "Unwrap spans containing only text."  The result is what stands in the
    place of the node, and whether the node was replaced, in which case the
    loop goes on with the parent.  A span is looked at when it is in the
    selection [span:not([class])] or when the loop climbs to it; it is
    replaced by what its text parses to. *)
Fixpoint unwrapTextNode (n : node) : forest * bool :=
  match n with
  | Text _ => ([n], false)
  | Elem t a ch =>
      let rs := map unwrapTextNode ch in
      let ch' := flat_map fst rs in
      if (t =? "span") && (classAbsent a || existsb snd rs) && noClass a
         && negb (existsb isTag ch')
      then (parseHtml (text ch'), true)
      else ([Elem t a ch'], false)
  end.

Definition unwrapText (ch : forest) : forest :=
  flat_map (fun c => fst (unwrapTextNode c)) ch.

(** The steps of the callback of [$('.highlight').each(...)] that follow
    the whitelist, on one container. *)
Definition afterWhitelist (n : node) : node :=
  match n with
  | Elem t a ch =>
      match dedupHighlights (Elem t a (collapseSpans (unwrapText ch))) with
      | Elem t' a' ch' => Elem t' a' (map unwrapSingleLine ch')
      | Text s => Text s
      end
  | Text _ => n
  end.

(** The callback of [$('.highlight').each(...)] on one container as the
    selection found it; [None] when the lookup of the extension throws. *)
Definition tidyContainer (n : node) : option node :=
  match extOf (childrenOf n) with
  | Some ext => Some (afterWhitelist (whitelistContainer ext n))
  | None => None
  end.

(** Whether an element below the container carries [source] or [text]
    after the whitelist and "Unwrap spans containing only text": the
    whitelist leaves no such class, so that only parsed text can bring
    one. *)
Definition markerAfterUnwrap (n : node) : bool :=
  match extOf (childrenOf n) with
  | Some ext =>
      existsb isMarker
        (descendants (unwrapText (map (mapAttrs (whitelist ext)) (childrenOf n))))
  | None => false
  end.

(** [$('.highlight').each(...)].  A container below another container is
    in the selection too and is visited after the outer one.  If no parsed
    text has brought a marker by then, every element below the inner
    container is one the whitelist went over, or a copy of such an element,
    and the lookup of the inner extension throws.  If parsed text has
    brought one, the run is not followed further. *)
Fixpoint tidyNode (n : node) : outcome node :=
  match n with
  | Text _ => Returned n
  | Elem t a ch =>
      if hasClassA "highlight" a then
        match tidyContainer n with
        | None => Threw
        | Some n' =>
            if negb (holdsContainer n) then Returned n'
            else if markerAfterUnwrap n then Beyond
            else Threw
        end
      else
        match mapO tidyNode ch with
        | Returned ch' => Returned (Elem t a ch')
        | Threw => Threw
        | Beyond => Beyond
        end
  end.

Definition tidyHighlights (d : forest) : outcome forest := mapO tidyNode d.

End Highlights.

(** ** build *)

(** [$('h1').first().remove()]: the first [h1] in document order, and the
    nodes that stand in the place of [n] without it. *)
Definition cutFirst (f : node -> option node * forest)
  : forest -> option node * forest :=
  fix go (l : forest) : option node * forest :=
    match l with
    | [] => (None, [])
    | x :: r =>
        match f x with
        | (Some h, xs) => (Some h, (xs ++ r)%list)
        | (None, xs) => let '(h, rs) := go r in (h, (xs ++ rs)%list)
        end
    end.

Fixpoint cutH1Node (n : node) : option node * forest :=
  match n with
  | Text _ => (None, [n])
  | Elem t a ch =>
      if t =? "h1" then (Some n, [])
      else let '(h, ch') := cutFirst cutH1Node ch in (h, [Elem t a ch'])
  end.

Definition removeFirstH1 (d : forest) : option node * forest :=
  cutFirst cutH1Node d.

(** [s.slice(1)] *)
Definition slice1 (s : string) : string :=
  match s with
  | EmptyString => EmptyString
  | String _ r => r
  end.

(** [_.trim($header.find('span').first().text()).slice(1)] *)
Definition versionOf (header : option node) : string :=
  match header with
  | Some h =>
      match find (nameIs "span") (descendants (childrenOf h)) with
      | Some sp => slice1 (trim (textOf sp))
      | None => ""
      end
  | None => ""
  end.

Definition newline : string := String "010" EmptyString.

(** ['version: ' + (version || null)] *)
Definition versionLine (version : string) : string :=
  "version: " ++ (if version =? "" then "null" else version).

(** The array of lines joined by ['\n']; [body] is [$.html()]. *)
Definition page (version body : string) : string :=
  join newline
    ["---"; "id: docs"; "layout: docs"; "title: Lodash Documentation";
     versionLine version; "---"; ""; "{% raw %}"; trim body; "{% endraw %}"; ""].

Section Build.

Variable parseHtml : string -> forest.

(** The six calls of [build], in the order of the script. *)
Definition cleanDocument (d : forest) : outcome forest :=
  let d1 := autoLink d in
  let d2 := renameLodashId d1 in
  let d3 := removeHorizontalRules d2 in
  let d4 := removeMarkyAttributes d3 in
  let d5 := repairMarkyHeaders parseHtml d4 in
  tidyHighlights parseHtml d5.

(** The name of the file written, under [doc/], and its content. *)
Definition build (rendered : forest) : outcome (string * string) :=
  let '(header, d) := removeFirstH1 rendered in
  let version := versionOf header in
  match cleanDocument d with
  | Returned d' => Returned (version ++ ".html", page version (html d'))
  | Threw => Threw
  | Beyond => Beyond
  end.


End Build.

(** ** Sample documents *)

(** What the parser gives for text that holds no [<] and no [&]. *)
Definition plainParser : string -> forest :=
  fun s => if s =? "" then [] else [Text s].

Definition sampleVersioned : forest :=
  [Elem "h1" [] [Text "lodash "; Elem "span" [] [Text "v4.17.0"]];
   Elem "p" [] [Text "x"]].

Definition sampleUnversioned : forest := [Elem "p" [] [Text "x"]].

(** ** Notions used in the statements *)

(** The pattern of a method reference, in words: [_.] followed by one or
    more word characters and nothing else. *)
Definition MethodRef (s : string) : Prop :=
  exists id, s = "_." ++ id /\ id <> "" /\ allChars isWordChar id = true.

Definition isText (n : node) : Prop := isTag n = false.

(** The characters a method reference is made of. *)
Definition isRefChar (c : ascii) : bool := isWordChar c || Ascii.eqb c ".".

(** The code elements [autoLink] replaces in a node. *)
Fixpoint qualifying (inDoc : bool) (n : node) : nat :=
  match n with
  | Text _ => 0
  | Elem t a ch =>
      if inDoc && (t =? "code") && isMethodRef (html ch) then 1
      else list_sum (map (qualifying (inDoc || hasClassA "doc-container" a)) ch)
  end.

(** The anchor elements of a node. *)
Fixpoint anchors (n : node) : nat :=
  match n with
  | Text _ => 0
  | Elem t a ch => (if t =? "a" then 1 else 0) + list_sum (map anchors ch)
  end.

Definition docContainer (ch : forest) : node :=
  Elem "div" [("class", "doc-container")] ch.


Definition sampleHeading : node := Elem "h3" [] [Text "t"].


(** No element of the node carrying the class [cls] has a child element
    carrying [cls]. *)
Fixpoint pairFree (cls : string) (n : node) : bool :=
  match n with
  | Text _ => true
  | Elem _ a ch =>
      negb (hasClassA cls a && existsb (hasClass cls) ch)
      && forallb (pairFree cls) ch
  end.




(** A class token as the whitelist has them: not empty, no white space. *)
Definition isWord (w : string) : bool :=
  negb (w =? "") && allChars (fun c => negb (isSpace c)) w.

Definition sampleNestedContainers : forest :=
  [Elem "div" [("class", "highlight")]
     [Elem "div" [("class", "highlight")]
        [Elem "span" [("class", "source js")] [Text "x"]]]].

(** Whether [this.prev] is there for every paragraph [walkSiblings] comes to. *)
Fixpoint previousExists (seenH3 : bool) (done : forest) (l : list (bool * node))
  : bool :=
  match l with
  | [] => true
  | (emptyP, x) :: r =>
      let seen := seenH3 || nameIs "h3" x in
      if emptyP && seenH3 then
        match done with
        | [] => false
        | prev :: before =>
            let '(kept, moved) := walkBack prev before [] in
            previousExists seen (prependTo moved x :: kept) r
        end
      else previousExists seen (x :: done) r
  end.

(** ** Predicates over whole documents *)

(** [p] holds of the node and of every node below it. *)
Fixpoint everyNode (p : node -> bool) (n : node) : bool :=
  p n && match n with
         | Text _ => true
         | Elem _ _ ch => forallb (everyNode p) ch
         end.

Definition everyNodeOf (p : node -> bool) (d : forest) : bool :=
  forallb (everyNode p) d.

(** The element carries an [id] that the selector [[id^="user-content-"]]
    accepts. *)
Definition hasMarkyId (n : node) : bool :=
  match attrOf "id" n with
  | Some v => prefix "user-content-" v
  | None => false
  end.

(** The element is one that [renameLodashId] selects. *)
Definition refersToUnderscore (n : node) : bool :=
  match attrOf "id" n with
  | Some v => v =? "_"
  | None => false
  end
  || match attrOf "href" n with
     | Some v => v =? "#_"
     | None => false
     end.

(** A heading other than [h3] with an anchor among its children. *)
Definition isHeadingWithAnchor (n : node) : bool :=
  match n with
  | Elem t _ ch => isHeaderNotH3 t && existsb (nameIs "a") ch
  | Text _ => false
  end.

Definition sampleMarkyHeading : forest :=
  [Elem "h3" [("id", "user-content-chunk"); ("class", "deep-link")]
     [Elem "a" [("href", "#chunk")] [Text "chunk"]];
   Elem "p" [("id", "intro"); ("class", "lead")] [Text "x"]].


(** The node that a path of child positions leads to, from the top of the
    document. *)
Fixpoint nodeAt (path : list nat) (d : forest) : option node :=
  match path with
  | [] => None
  | i :: rest =>
      match nth_error d i with
      | Some n =>
          match rest with
          | [] => Some n
          | _ :: _ => nodeAt rest (childrenOf n)
          end
      | None => None
      end
  end.

(** An element on the way to that node, the node itself left out, carries
    the class [doc-container]. *)
Fixpoint inContainer (path : list nat) (d : forest) : bool :=
  match path with
  | [] => false
  | i :: rest =>
      match nth_error d i with
      | Some n =>
          match rest with
          | [] => false
          | _ :: _ => hasClass "doc-container" n || inContainer rest (childrenOf n)
          end
      | None => false
      end
  end.

Definition sampleReference : forest :=
  [Elem "section" [("class", "doc-container")]
     [Elem "p" [] [Text "See "; Elem "code" [("class", "ref")] [Text "_.map"]; Text "."]]].








(** * Properties *)

(** ** Strings and attributes *)

Lemma append_empty_r (s : string) : s ++ "" = s.
Proof. induction s as [|c s IH]; simpl; [reflexivity | now rewrite IH]. Qed.

Lemma append_assoc (s t u : string) : (s ++ t) ++ u = s ++ (t ++ u).
Proof. induction s as [|c s IH]; simpl; [reflexivity | now rewrite IH]. Qed.

Lemma getAttr_removeAttr_same (k : string) (a : attrs) :
  getAttr k (removeAttr k a) = None.
Proof.
  induction a as [|[k' v] a IH]; simpl; [reflexivity|].
  destruct (k' =? k) eqn:E; simpl; [exact IH | now rewrite E].
Qed.

Lemma getAttr_removeAttr_other (k k' : string) (a : attrs) :
  k <> k' -> getAttr k (removeAttr k' a) = getAttr k a.
Proof.
  intros Hk. induction a as [|[k0 v] a IH]; simpl; [reflexivity|].
  destruct (k0 =? k') eqn:E; simpl.
  - apply String.eqb_eq in E. subst k0.
    destruct (k' =? k) eqn:E'; [apply String.eqb_eq in E'; congruence | exact IH].
  - destruct (k0 =? k); [reflexivity | exact IH].
Qed.

Lemma getAttr_setAttr_same (k v : string) (a : attrs) :
  getAttr k (setAttr k v a) = Some v.
Proof.
  induction a as [|[k0 v0] a IH]; simpl.
  - now rewrite String.eqb_refl.
  - destruct (k0 =? k) eqn:E; simpl; [now rewrite String.eqb_refl | now rewrite E].
Qed.

Lemma getAttr_setAttr_other (k k' v : string) (a : attrs) :
  k <> k' -> getAttr k (setAttr k' v a) = getAttr k a.
Proof.
  intros Hk. induction a as [|[k0 v0] a IH]; simpl.
  - destruct (k' =? k) eqn:E; [apply String.eqb_eq in E; congruence | reflexivity].
  - destruct (k0 =? k') eqn:E; simpl.
    + apply String.eqb_eq in E. subst k0.
      destruct (k' =? k) eqn:E'; [apply String.eqb_eq in E'; congruence | reflexivity].
    + destruct (k0 =? k); [reflexivity | exact IH].
Qed.


(** ** The page *)

(** C8.  With an empty version string the fourth line of the front matter
    is [version: null]; with any other version string it is [version: ]
    followed by that string; in both cases the page is produced whenever the
    six passes return a document. *)
Theorem version_line_of_build (parseHtml : string -> forest)
    (rendered d' : forest) :
  cleanDocument parseHtml (snd (removeFirstH1 rendered)) = Returned d' ->
  let version := versionOf (fst (removeFirstH1 rendered)) in
  build parseHtml rendered =
    Returned (version ++ ".html",
          "---" ++ newline ++ "id: docs" ++ newline ++ "layout: docs" ++ newline
          ++ "title: Lodash Documentation" ++ newline
          ++ "version: " ++ (match version with
                             | EmptyString => "null"
                             | String _ _ => version
                             end) ++ newline
          ++ "---" ++ newline ++ newline ++ "{% raw %}" ++ newline
          ++ trim (html d') ++ newline ++ "{% endraw %}" ++ newline).
Proof.
  intros Hclean version. unfold build.
  destruct (removeFirstH1 rendered) as [header d] eqn:Hcut.
  simpl in Hclean, version. rewrite Hclean.
  subst version. f_equal. f_equal.
  unfold page, versionLine, join, newline. simpl fold_left.
  destruct (versionOf header) as [|c v]; simpl;
    repeat (rewrite ?append_assoc; simpl); reflexivity.
Qed.

Lemma version_line_of_build_witness :
  build plainParser sampleUnversioned =
    Returned (".html",
          "---" ++ newline ++ "id: docs" ++ newline ++ "layout: docs" ++ newline
          ++ "title: Lodash Documentation" ++ newline
          ++ "version: null" ++ newline
          ++ "---" ++ newline ++ newline ++ "{% raw %}" ++ newline
          ++ "<p>x</p>" ++ newline ++ "{% endraw %}" ++ newline)
  /\ build plainParser sampleVersioned =
    Returned ("4.17.0.html",
          "---" ++ newline ++ "id: docs" ++ newline ++ "layout: docs" ++ newline
          ++ "title: Lodash Documentation" ++ newline
          ++ "version: 4.17.0" ++ newline
          ++ "---" ++ newline ++ newline ++ "{% raw %}" ++ newline
          ++ "<p>x</p>" ++ newline ++ "{% endraw %}" ++ newline).
Proof.
  split.
  - exact (version_line_of_build plainParser sampleUnversioned
             [Elem "p" [] [Text "x"]] eq_refl).
  - exact (version_line_of_build plainParser sampleVersioned
             [Elem "p" [] [Text "x"]] eq_refl).
Defined.

(** ** autoLink *)

Lemma allChars_app (p : ascii -> bool) (s t : string) :
  allChars p (s ++ t) = allChars p s && allChars p t.
Proof.
  induction s as [|c s IH]; simpl; [reflexivity|].
  now rewrite IH, andb_assoc.
Qed.

Lemma allChars_weaken (p q : ascii -> bool) (s : string) :
  (forall c, p c = true -> q c = true) ->
  allChars p s = true -> allChars q s = true.
Proof.
  intros Hpq. induction s as [|c s IH]; simpl; [reflexivity|].
  intros H. apply andb_prop in H as [Hc Hs].
  now rewrite (Hpq _ Hc), (IH Hs).
Qed.

Lemma isMethodRef_spec (s : string) : isMethodRef s = true <-> MethodRef s.
Proof.
  split.
  - destruct s as [|c1 [|c2 r]]; try discriminate.
    + simpl. destruct c1 as [[] [] [] [] [] [] [] []]; discriminate.
    + intros H. exists r.
      assert (c1 = "_"%char /\ c2 = "."%char /\
              negb (r =? "") && allChars isWordChar r = true) as (-> & -> & Hr).
      { destruct c1 as [[] [] [] [] [] [] [] []]; try discriminate H;
        destruct c2 as [[] [] [] [] [] [] [] []]; try discriminate H; auto. }
      apply andb_prop in Hr as [Hne Hw]. repeat split; [|exact Hw].
      intros ->. discriminate Hne.
  - intros (id & -> & Hne & Hw). simpl. rewrite Hw, andb_true_r.
    destruct id; [congruence | reflexivity].
Qed.

Lemma isMethodRef_refChars (s : string) :
  isMethodRef s = true -> allChars isRefChar s = true.
Proof.
  intros H. apply isMethodRef_spec in H as (id & -> & _ & Hw).
  simpl. apply (allChars_weaken isWordChar); [|exact Hw].
  intros c Hc. unfold isRefChar. now rewrite Hc.
Qed.

Lemma encodeAux_pending (r : string) :
  forall k cp, allChars isRefChar (encodeAux (S k) cp r) = false.
Proof.
  induction r as [|c r IH]; intros k cp; [reflexivity|].
  cbn [encodeAux].
  destruct (N.leb 128 (N_of_ascii c) && N.ltb (N_of_ascii c) 192).
  - destruct k; [reflexivity | apply IH].
  - reflexivity.
Qed.

Lemma encodeAux_plain (c : ascii) (r : string) :
  isRefChar c = true -> encodeAux 0 0 (String c r) = String c (encodeAux 0 0 r).
Proof.
  intros H.
  destruct c as [[] [] [] [] [] [] [] []]; try discriminate H; reflexivity.
Qed.

Lemma encodeAux_other (c : ascii) (r : string) :
  isRefChar c = false -> allChars isRefChar (encodeAux 0 0 (String c r)) = false.
Proof.
  intros H.
  destruct c as [[] [] [] [] [] [] [] []]; try discriminate H;
    first [reflexivity | apply encodeAux_pending].
Qed.

Lemma escape_plain (s : string) : allChars isRefChar s = true -> escape s = s.
Proof.
  unfold escape. induction s as [|c s IH]; [reflexivity|].
  cbn [allChars]. intros H. apply andb_prop in H as [Hc Hs].
  now rewrite (encodeAux_plain c s Hc), (IH Hs).
Qed.

Lemma escape_refChars (s : string) :
  allChars isRefChar (escape s) = true -> escape s = s.
Proof.
  unfold escape. induction s as [|c s IH]; [reflexivity|].
  destruct (isRefChar c) eqn:Hc.
  - rewrite (encodeAux_plain c s Hc). cbn [allChars]. rewrite Hc. cbn [andb].
    intros H. now rewrite (IH H).
  - rewrite (encodeAux_other c s Hc). discriminate.
Qed.

Lemma html_refChars (ch : forest) :
  allChars isRefChar (html ch) = true ->
  Forall isText ch /\ text ch = html ch.
Proof.
  induction ch as [|x r IH]; [now split|].
  cbn [html]. rewrite allChars_app. intros H. apply andb_prop in H as [Hx Hr].
  destruct x as [s|t a c]; [|cbn in Hx; discriminate Hx].
  destruct (IH Hr) as [Hall Htxt]. cbn [outerHtml] in Hx. cbn [text textOf outerHtml]. split.
  - constructor; [reflexivity | exact Hall].
  - now rewrite (escape_refChars s Hx), Htxt.
Qed.

Lemma split_noSep (s : string) :
  allChars isWordChar s = true -> split "." s = [s].
Proof.
  induction s as [|c s IH]; simpl; [reflexivity|].
  intros H. apply andb_prop in H as [Hc Hs].
  destruct (Ascii.eqb c ".") eqn:E.
  - apply Ascii.eqb_eq in E. subst c. discriminate Hc.
  - now rewrite (IH Hs).
Qed.

Lemma methodId_ref (id : string) :
  allChars isWordChar id = true -> methodId ("_." ++ id) = id.
Proof.
  intros Hw. unfold methodId. simpl. now rewrite (split_noSep id Hw).
Qed.

Lemma map_autoLink_texts (b : bool) (ch : forest) :
  Forall isText ch -> map (autoLinkNode b) ch = ch.
Proof.
  induction 1 as [|x r Hx _ IH]; simpl; [reflexivity|].
  destruct x; [now rewrite IH | discriminate Hx].
Qed.

(** What [autoLinkNode] does with one [code] element. *)
Lemma autoLinkNode_code (inDoc : bool) (a : attrs) (ch : forest) :
  (inDoc = true /\ MethodRef (html ch) ->
     exists id, html ch = "_." ++ id /\ text ch = html ch /\ Forall isText ch /\
       autoLinkNode inDoc (Elem "code" a ch) =
         Elem "a" [("href", "#" ++ id)] [Elem "code" [] [Text (text ch)]])
  /\ (~ (inDoc = true /\ MethodRef (html ch)) ->
        autoLinkNode inDoc (Elem "code" a ch) =
          Elem "code" a (map (autoLinkNode (inDoc || hasClassA "doc-container" a)) ch)
        /\ (Forall isText ch -> autoLinkNode inDoc (Elem "code" a ch) = Elem "code" a ch)).
Proof.
  split.
  - intros [-> Href]. pose proof Href as (id & Hid & Hne & Hw).
    apply isMethodRef_spec in Href.
    destruct (html_refChars ch (isMethodRef_refChars _ Href)) as [Hall Htxt].
    exists id. repeat split; auto.
    simpl. rewrite Href. unfold methodLink.
    rewrite Htxt, Hid, (methodId_ref id Hw). reflexivity.
  - intros Hno.
    assert (inDoc && ("code" =? "code") && isMethodRef (html ch) = false) as E.
    { destruct inDoc; [|reflexivity]. simpl.
      destruct (isMethodRef (html ch)) eqn:E; [|reflexivity].
      exfalso. apply Hno. split; [reflexivity | now apply isMethodRef_spec]. }
    simpl autoLinkNode. simpl in E. rewrite E. split; [reflexivity|].
    intros Hall. now rewrite map_autoLink_texts.
Qed.

Lemma isMethodRef_html_map (b : bool) (ch : forest) :
  isMethodRef (html (map (autoLinkNode b) ch)) = isMethodRef (html ch).
Proof.
  destruct (isMethodRef (html ch)) eqn:E.
  - destruct (html_refChars ch (isMethodRef_refChars _ E)) as [Hall _].
    now rewrite map_autoLink_texts.
  - destruct (isMethodRef (html (map (autoLinkNode b) ch))) eqn:E'; [|reflexivity].
    destruct (html_refChars _ (isMethodRef_refChars _ E')) as [Hall _].
    assert (Forall isText ch) as Hch.
    { clear E E'. induction ch as [|x r IH]; [constructor|].
      simpl in Hall. inversion Hall as [|? ? Hx Hr]; subst.
      constructor; [|now apply IH].
      destruct x as [s|t a c]; [reflexivity|].
      simpl in Hx. unfold isText in Hx.
      destruct (b && (t =? "code") && isMethodRef (html c)); discriminate Hx. }
    rewrite (map_autoLink_texts b ch Hch) in E'. congruence.
Qed.

Lemma anchors_texts (ch : forest) :
  Forall isText ch -> list_sum (map anchors ch) = 0.
Proof.
  induction 1 as [|x r Hx _ IH]; simpl; [reflexivity|].
  destruct x; [exact IH | discriminate Hx].
Qed.

Lemma list_sum_map_ext {A : Type} (f g h : A -> nat) (l : list A) :
  Forall (fun x => f x = g x + h x) l ->
  list_sum (map f l) = list_sum (map g l) + list_sum (map h l).
Proof.
  induction 1 as [|x r Hx _ IH]; simpl; [reflexivity | lia].
Qed.

Lemma html_methodLink_code (h : string) :
  isMethodRef h = true -> isMethodRef (html [Text ("_." ++ methodId h)]) = true.
Proof.
  intros H. pose proof H as Hspec.
  apply isMethodRef_spec in Hspec as (id & -> & _ & Hw).
  rewrite (methodId_ref id Hw). cbn [html outerHtml].
  rewrite append_empty_r.
  rewrite escape_plain; [exact H | now apply isMethodRef_refChars].
Qed.

(** Every run adds one anchor for each code element it replaces. *)
Lemma anchors_autoLinkNode (n : node) :
  forall b, anchors (autoLinkNode b n) = anchors n + qualifying b n.
Proof.
  induction n as [s|t a ch IH] using node_ind'; intros b; [reflexivity|].
  simpl. destruct (b && (t =? "code") && isMethodRef (html ch)) eqn:E.
  - apply andb_prop in E as [E Href]. apply andb_prop in E as [_ Et].
    apply String.eqb_eq in Et. subst t.
    destruct (html_refChars ch (isMethodRef_refChars _ Href)) as [Hall _].
    simpl. now rewrite (anchors_texts ch Hall).
  - simpl. rewrite map_map.
    rewrite (list_sum_map_ext _ anchors
               (qualifying (b || hasClassA "doc-container" a))).
    + lia.
    + eapply Forall_impl; [|exact IH]. intros x Hx. apply Hx.
Qed.

(** The elements a run replaces are matched again by the next run: the
    [code] element of the generated anchor is still below the container. *)
Lemma qualifying_autoLinkNode (n : node) :
  forall b, qualifying b (autoLinkNode b n) = qualifying b n.
Proof.
  induction n as [s|t a ch IH] using node_ind'; intros b; [reflexivity|].
  simpl. destruct (b && (t =? "code") && isMethodRef (html ch)) eqn:E.
  - apply andb_prop in E as [E Href]. apply andb_prop in E as [Hb _].
    subst b. unfold methodLink.
    cbn [qualifying andb String.eqb Ascii.eqb Bool.eqb orb map list_sum].
    rewrite (html_methodLink_code _ Href). reflexivity.
  - simpl. rewrite isMethodRef_html_map, E, map_map. f_equal.
    apply map_ext_Forall. eapply Forall_impl; [|exact IH].
    intros x Hx. apply Hx.
Qed.

Lemma autoLinkNode_fixed (n : node) :
  forall b, qualifying b n = 0 -> autoLinkNode b n = n.
Proof.
  induction n as [s|t a ch IH] using node_ind'; intros b; [reflexivity|].
  simpl. destruct (b && (t =? "code") && isMethodRef (html ch)); [discriminate|].
  intros Hsum. f_equal.
  induction IH as [|x r Hx _ IHr]; [reflexivity|].
  simpl in Hsum |- *. rewrite Hx by lia. rewrite IHr by lia. reflexivity.
Qed.

(** C3, as the code has it.  A second run of [autoLink] changes nothing
    exactly when the first run changed nothing: a run adds one anchor around
    every qualifying code element, and the code element inside the new
    anchor qualifies again. *)
Theorem autoLink_twice (d : forest) :
  autoLink (autoLink d) = autoLink d <-> autoLink d = d.
Proof.
  split; [|intros H; now rewrite !H].
  intros H. unfold autoLink in *.
  assert (list_sum (map anchors (map (autoLinkNode false) (map (autoLinkNode false) d)))
          = list_sum (map anchors (map (autoLinkNode false) d))) as Ha
    by now rewrite H.
  clear H. induction d as [|x r IH]; [reflexivity|].
  simpl in Ha. rewrite !anchors_autoLinkNode, qualifying_autoLinkNode in Ha.
  assert (forall l, list_sum (map anchors (map (autoLinkNode false) l))
                    >= list_sum (map anchors l)) as Hmono.
  { intros l. induction l as [|y l IHl]; simpl; [lia|].
    rewrite anchors_autoLinkNode. lia. }
  pose proof (Hmono (map (autoLinkNode false) r)).
  simpl. rewrite autoLinkNode_fixed by lia. rewrite IH by lia. reflexivity.
Qed.

(** C3 fails as stated: the second run wraps the generated anchor again. *)
Lemma autoLink_not_idempotent :
  autoLink (autoLink [docContainer [Elem "code" [] [Text "_.map"]]])
    = [docContainer
         [Elem "a" [("href", "#map")]
            [Elem "a" [("href", "#map")] [Elem "code" [] [Text "_.map"]]]]]
  /\ autoLink (autoLink [docContainer [Elem "code" [] [Text "_.map"]]])
       <> autoLink [docContainer [Elem "code" [] [Text "_.map"]]].
Proof. split; [reflexivity | discriminate]. Qed.

(** ** repairMarkyHeaders: the empty paragraph before a heading *)

Open Scope list_scope.





(** ** repairMarkyHeaders: the empty paragraph after a heading *)


(** The walk is never started from a paragraph without previous sibling. *)
Lemma walk_has_previous (l : list (bool * node)) :
  forall seenH3 done,
    (seenH3 = true -> done <> []) -> previousExists seenH3 done l = true.
Proof.
  induction l as [|[emptyP x] r IH]; intros seenH3 done Hinv; [reflexivity|].
  cbn [previousExists]. destruct (emptyP && seenH3) eqn:E.
  - apply andb_prop in E as [_ Hs]. destruct done as [|prev before].
    + now destruct (Hinv Hs).
    + destruct (walkBack prev before []) as [kept moved]. apply IH. discriminate.
  - apply IH. discriminate.
Qed.


Open Scope string_scope.

(** ** removeMarkyAttributes: anchors in headings *)

Open Scope list_scope.


Open Scope string_scope.

(** ** tidyHighlights: the whitelist *)


Lemma intersection_nil_r (xs : list string) : intersection xs [] = [].
Proof.
  unfold intersection. induction xs as [|x xs IH]; [reflexivity | exact IH].
Qed.

Lemma whitelist_other (ext : string) (a : attrs) :
  highlights ext = [] -> classAbsent (whitelist ext a) = true.
Proof.
  intros H. unfold whitelist, classAbsent.
  destruct (getAttr "class" a) as [v|] eqn:E.
  - rewrite H, intersection_nil_r. cbn [join String.eqb attrSet].
    now rewrite getAttr_removeAttr_same.
  - now rewrite E.
Qed.


(** ** tidyHighlights: nested highlights *)

Lemma hasClass_dedupNode (c cls : string) (n : node) :
  hasClass c (dedupNode cls n) = hasClass c n.
Proof.
  destruct n as [s|t a ch]; [reflexivity|]. simpl.
  destruct (hasClassA cls a && existsb (hasClass cls) ch); reflexivity.
Qed.

Lemma existsb_hasClass_dedup (c cls : string) (ch : forest) :
  existsb (hasClass c) (map (dedupNode cls) ch) = existsb (hasClass c) ch.
Proof.
  induction ch as [|x r IH]; [reflexivity|].
  simpl. now rewrite hasClass_dedupNode, IH.
Qed.

Lemma pairFree_dedupNode (cls : string) (n : node) :
  pairFree cls (dedupNode cls n) = true.
Proof.
  induction n as [s|t a ch IH] using node_ind'; [reflexivity|].
  cbn [dedupNode]. destruct (hasClassA cls a && existsb (hasClass cls) ch) eqn:E.
  - cbn [pairFree existsb hasClass forallb]. now rewrite andb_false_r.
  - cbn [pairFree]. rewrite existsb_hasClass_dedup, E. cbn [negb andb].
    rewrite forallb_forall. intros y Hy. apply in_map_iff in Hy as (x & <- & Hx).
    rewrite Forall_forall in IH. now apply IH.
Qed.

Lemma pairFree_kept (c cls : string) (n : node) :
  pairFree c n = true -> pairFree c (dedupNode cls n) = true.
Proof.
  induction n as [s|t a ch IH] using node_ind'; [reflexivity|].
  cbn [dedupNode pairFree]. intros H. apply andb_prop in H as [Hroot Hch].
  destruct (hasClassA cls a && existsb (hasClass cls) ch).
  - cbn [pairFree existsb hasClass forallb]. now rewrite andb_false_r.
  - cbn [pairFree]. rewrite existsb_hasClass_dedup, Hroot. cbn [andb].
    rewrite forallb_forall in Hch |- *. intros y Hy.
    apply in_map_iff in Hy as (x & <- & Hx).
    rewrite Forall_forall in IH. apply IH; auto.
Qed.

Lemma textOf_Elem (t : string) (a : attrs) (ch : forest) :
  textOf (Elem t a ch) = text ch.
Proof.
  cbn [textOf]. induction ch as [|x r IH]; [reflexivity|].
  cbn [text]. now rewrite IH.
Qed.





(** ** tidyHighlights: when it throws *)

Lemma fold_join_prefix (sep p : string) (r : list string) (q : string) :
  fold_left (fun acc y => acc ++ sep ++ y) r (p ++ q)
  = p ++ fold_left (fun acc y => acc ++ sep ++ y) r q.
Proof.
  revert q. induction r as [|y r IH]; intros q; [reflexivity|].
  cbn [fold_left]. now rewrite append_assoc, IH.
Qed.

Lemma join_cons (sep x y : string) (r : list string) :
  join sep (x :: y :: r) = x ++ sep ++ join sep (y :: r).
Proof.
  unfold join. cbn [fold_left].
  now rewrite (fold_join_prefix sep x r (sep ++ y)), (fold_join_prefix sep sep r y).
Qed.

Lemma tokensAux_word (w : string) :
  forall cur s, allChars (fun c => negb (isSpace c)) w = true ->
                tokensAux cur (w ++ s) = tokensAux (cur ++ w) s.
Proof.
  induction w as [|c w IH]; intros cur s H.
  - now rewrite append_empty_r.
  - cbn [allChars] in H. apply andb_prop in H as [Hc Hw].
    cbn [append tokensAux]. apply negb_true_iff in Hc. rewrite Hc.
    rewrite (IH _ _ Hw), append_assoc. reflexivity.
Qed.

Lemma tokens_join (l : list string) :
  forallb isWord l = true -> tokens (join " " l) = l.
Proof.
  induction l as [|x r IH]; [reflexivity|].
  cbn [forallb]. intros H. apply andb_prop in H as [Hx Hr].
  unfold isWord in Hx. apply andb_prop in Hx as [Hne Hns].
  assert ((x =? "") = false) as Hx0 by now apply negb_true_iff.
  destruct r as [|y r].
  - unfold tokens, join. cbn [fold_left].
    rewrite <- (append_empty_r x) at 1.
    rewrite (tokensAux_word x "" "" Hns). cbn [append tokensAux].
    now rewrite Hx0.
  - rewrite join_cons. unfold tokens.
    rewrite (tokensAux_word x "" _ Hns). cbn [append tokensAux].
    change (isSpace " ") with true. cbn iota. rewrite Hx0.
    f_equal. apply IH, Hr.
Qed.

Lemma uniq_incl (ys : list string) (l seen : list string) (x : string) :
  (forall z, In z l -> strIn z ys = true) ->
  In x (uniq seen l) -> strIn x ys = true.
Proof.
  revert seen. induction l as [|z l IH]; intros seen Hl Hin; [destruct Hin|].
  cbn [uniq] in Hin. destruct (strIn z seen).
  - apply (IH seen); auto. intros w Hw. apply Hl. now right.
  - destruct Hin as [<-|Hin]; [apply Hl; now left|].
    apply (IH (z :: seen)); auto. intros w Hw. apply Hl. now right.
Qed.

Lemma intersection_incl (xs ys : list string) (x : string) :
  In x (intersection xs ys) -> strIn x ys = true.
Proof.
  unfold intersection. apply uniq_incl.
  intros z Hz. now apply filter_In in Hz as [_ Hz].
Qed.

Lemma highlights_words (ext : string) : forallb isWord (highlights ext) = true.
Proof.
  unfold highlights.
  destruct (ext =? "html"); [reflexivity|].
  destruct (ext =? "js"); reflexivity.
Qed.

Lemma highlights_no_marker (ext cls : string) :
  cls = "source" \/ cls = "text" \/ cls = "highlight" ->
  strIn cls (highlights ext) = false.
Proof.
  unfold highlights.
  intros [->|[->| ->]];
    (destruct (ext =? "html"); [reflexivity|]);
    destruct (ext =? "js"); reflexivity.
Qed.

Lemma strIn_In (x : string) (l : list string) : strIn x l = true <-> In x l.
Proof.
  unfold strIn. rewrite existsb_exists. split.
  - intros (y & Hy & E). apply String.eqb_eq in E. now subst.
  - intros H. exists x. split; [exact H | apply String.eqb_refl].
Qed.

(** After the whitelist no element carries [source], [text] or [highlight]. *)
Lemma whitelist_drops (ext cls : string) (a : attrs) :
  cls = "source" \/ cls = "text" \/ cls = "highlight" ->
  hasClassA cls (whitelist ext a) = false.
Proof.
  intros Hcls. unfold whitelist, hasClassA.
  destruct (getAttr "class" a) as [v|] eqn:E; [|now rewrite E].
  set (inter := intersection (split " " v) (highlights ext)).
  destruct (join " " inter =? "") eqn:Ej; cbn [attrSet].
  - now rewrite getAttr_removeAttr_same.
  - rewrite getAttr_setAttr_same.
    assert (forall x, In x inter -> strIn x (highlights ext) = true) as Hin
      by (intros x; apply intersection_incl).
    rewrite tokens_join.
    + destruct (strIn cls inter) eqn:Es; [|reflexivity].
      apply strIn_In in Es. apply Hin in Es.
      now rewrite (highlights_no_marker ext cls Hcls) in Es.
    + rewrite forallb_forall. intros x Hx.
      pose proof (highlights_words ext) as Hw. rewrite forallb_forall in Hw.
      apply Hw. apply strIn_In. now apply Hin.
Qed.

Open Scope list_scope.

Lemma descendantsOf_Elem (t : string) (a : attrs) (ch : forest) :
  descendantsOf (Elem t a ch) = Elem t a ch :: descendants ch.
Proof.
  cbn [descendantsOf]. f_equal;
    try (induction ch as [|x r IH]; [reflexivity | cbn [descendants]; now rewrite IH]).
Qed.

Lemma existsb_descendants (p : node -> bool) (ch : forest) :
  existsb p (descendants ch) = existsb (fun c => existsb p (descendantsOf c)) ch.
Proof.
  induction ch as [|x r IH]; [reflexivity|].
  cbn [descendants existsb]. now rewrite existsb_app, IH.
Qed.

Lemma whitelisted_no_marker (ext : string) (n : node) :
  existsb isMarker (descendantsOf (mapAttrs (whitelist ext) n)) = false.
Proof.
  induction n as [s|t a ch IH] using node_ind'; [reflexivity|].
  cbn [mapAttrs]. rewrite descendantsOf_Elem. cbn [existsb].
  unfold isMarker at 1. cbn [hasClass].
  rewrite !whitelist_drops by auto. cbn [orb].
  rewrite existsb_descendants.
  induction IH as [|x r Hx _ IHr]; [reflexivity|].
  cbn [map existsb]. now rewrite Hx, IHr.
Qed.


Open Scope string_scope.

(** ** build: the order of the passes *)

Open Scope list_scope.







Lemma mapAttrs_compose (f g : attrs -> attrs) (n : node) :
  mapAttrs f (mapAttrs g n) = mapAttrs (fun a => f (g a)) n.
Proof.
  induction n as [s|t a ch IH] using node_ind'; [reflexivity|].
  cbn [mapAttrs]. f_equal. rewrite map_map. now apply map_ext_Forall.
Qed.


Lemma getAttr_id_renameHref (a : attrs) :
  getAttr "id" (renameHref a) = getAttr "id" a.
Proof.
  unfold renameHref. destruct (getAttr "href" a) as [v|]; [|reflexivity].
  destruct (v =? "#_")%string; [|reflexivity].
  cbn [attrSet]. apply getAttr_setAttr_other. discriminate.
Qed.




Lemma renameLodashId_map (d : forest) :
  renameLodashId d = map (mapAttrs (fun a => renameHref (renameId a))) d.
Proof.
  unfold renameLodashId. rewrite map_map. apply map_ext.
  intros n. apply mapAttrs_compose.
Qed.




Open Scope string_scope.

(** * Further properties of the passes *)

Open Scope list_scope.

Lemma everyNode_Elem (p : node -> bool) (t : string) (a : attrs) (ch : forest) :
  everyNode p (Elem t a ch) = p (Elem t a ch) && forallb (everyNode p) ch.
Proof. reflexivity. Qed.

Lemma forallb_flat_map {A B : Type} (p : B -> bool) (f : A -> list B) (l : list A) :
  Forall (fun x => forallb p (f x) = true) l -> forallb p (flat_map f l) = true.
Proof.
  induction 1 as [|x r Hx _ IH]; [reflexivity|].
  cbn [flat_map]. now rewrite forallb_app, Hx, IH.
Qed.

Lemma text_app (l r : forest) : text (l ++ r) = (text l ++ text r)%string.
Proof.
  induction l as [|x l IH]; [reflexivity|].
  cbn [app text]. now rewrite IH, append_assoc.
Qed.


Lemma text_map (f : node -> node) (l : forest) :
  Forall (fun x => textOf (f x) = textOf x) l -> text (map f l) = text l.
Proof.
  induction 1 as [|x r Hx _ IH]; [reflexivity|].
  cbn [map text]. now rewrite Hx, IH.
Qed.

Lemma flat_map_fixed {A : Type} (f : A -> list A) (l : list A) :
  (forall x, In x l -> f x = [x]) -> flat_map f l = l.
Proof.
  induction l as [|x r IH]; [reflexivity|]. intros H.
  cbn [flat_map]. rewrite (H x) by now left.
  rewrite IH by (intros y Hy; apply H; now right). reflexivity.
Qed.

Lemma text_single (n : node) : text [n] = textOf n.
Proof. cbn [text]. apply append_empty_r. Qed.

(** ** Parsed copies *)




Section LocalPredicate.

(** A predicate that holds of text and looks at the name and the attributes
    of an element only. *)
Variable p : node -> bool.
Hypothesis p_text : forall s, p (Text s) = true.
Hypothesis p_local : forall t a ch ch', p (Elem t a ch) = p (Elem t a ch').




End LocalPredicate.

(** ** removeHorizontalRules *)

Lemma removeHrNode_no_hr (n : node) :
  forallb (everyNode (fun m => negb (nameIs "hr" m))) (removeHrNode n) = true.
Proof.
  induction n as [s|t a ch IH] using node_ind'; [reflexivity|].
  cbn [removeHrNode]. destruct (t =? "hr")%string eqn:E; [reflexivity|].
  cbn [forallb]. rewrite everyNode_Elem. cbn [nameIs]. rewrite E. cbn [negb andb].
  rewrite andb_true_r. now apply forallb_flat_map.
Qed.

(** X1.  After [removeHorizontalRules] the document holds no [hr] element,
    at any depth. *)
Theorem removeHorizontalRules_leaves_no_rule (d : forest) :
  everyNodeOf (fun m => negb (nameIs "hr" m)) (removeHorizontalRules d) = true.
Proof.
  unfold everyNodeOf, removeHorizontalRules. apply forallb_flat_map.
  apply Forall_forall. intros n _. apply removeHrNode_no_hr.
Qed.

Lemma removeHrNode_fixed (n : node) :
  everyNode (fun m => negb (nameIs "hr" m)) n = true -> removeHrNode n = [n].
Proof.
  induction n as [s|t a ch IH] using node_ind'; [reflexivity|].
  rewrite everyNode_Elem. cbn [nameIs removeHrNode]. intros H.
  apply andb_prop in H as [Ht Hch]. apply negb_true_iff in Ht. rewrite Ht.
  do 2 f_equal. rewrite forallb_forall in Hch.
  induction IH as [|x r Hx _ IHr]; [reflexivity|].
  cbn [flat_map]. rewrite Hx by (apply Hch; now left).
  rewrite IHr by (intros y Hy; apply Hch; now right). reflexivity.
Qed.

Lemma removeHorizontalRules_fixed (d : forest) :
  everyNodeOf (fun m => negb (nameIs "hr" m)) d = true ->
  removeHorizontalRules d = d.
Proof.
  unfold everyNodeOf, removeHorizontalRules.
  induction d as [|x r IH]; [reflexivity|].
  cbn [forallb flat_map]. intros H. apply andb_prop in H as [Hx Hr].
  now rewrite (removeHrNode_fixed x Hx), IH.
Qed.

(** X2.  [removeHorizontalRules] is idempotent: a second run finds nothing
    to remove. *)
Theorem removeHorizontalRules_idempotent (d : forest) :
  removeHorizontalRules (removeHorizontalRules d) = removeHorizontalRules d.
Proof.
  apply removeHorizontalRules_fixed. unfold everyNodeOf, removeHorizontalRules.
  apply forallb_flat_map, Forall_forall. intros n _. apply removeHrNode_no_hr.
Qed.

(** ** removeMarkyAttributes *)





(** X4.  On an element whose [id] starts with [user-content-] the first
    rule of [removeMarkyAttributes] removes [id] and [class] and keeps the
    value of every other attribute; the attributes of any other element are
    left as they are. *)
Theorem stripMarky_attributes (a : attrs) :
  (hasMarkyId (Elem "x" a []) = true ->
     getAttr "id" (stripMarky a) = None
     /\ getAttr "class" (stripMarky a) = None
     /\ forall k, k <> "id"%string -> k <> "class"%string ->
                  getAttr k (stripMarky a) = getAttr k a)
  /\ (hasMarkyId (Elem "x" a []) = false -> stripMarky a = a).
Proof.
  unfold hasMarkyId, stripMarky. cbn [attrOf].
  destruct (getAttr "id" a) as [v|]; [|split; [discriminate | reflexivity]].
  destruct (prefix "user-content-" v); [|split; [discriminate | reflexivity]].
  split; [|discriminate]. intros _. cbn [attrSet].
  split; [apply getAttr_removeAttr_same|]. split.
  - rewrite getAttr_removeAttr_other by discriminate. apply getAttr_removeAttr_same.
  - intros k Hid Hcl. now rewrite !getAttr_removeAttr_other.
Qed.

Lemma stripMarky_attributes_witness :
  getAttr "id" (stripMarky [("id", "user-content-chunk"); ("class", "deep-link"); ("title", "t")]) = None
  /\ getAttr "title" (stripMarky [("id", "user-content-chunk"); ("class", "deep-link"); ("title", "t")])
     = Some "t"%string
  /\ stripMarky [("id", "intro"); ("class", "lead")] = [("id", "intro"); ("class", "lead")]%string.
Proof.
  pose proof (proj1 (stripMarky_attributes
                       [("id", "user-content-chunk"); ("class", "deep-link"); ("title", "t")]%string)
                eq_refl) as (Hid & _ & Hk).
  split; [|split].
  - exact Hid.
  - rewrite (Hk "title"%string); [reflexivity | discriminate | discriminate].
  - exact (proj2 (stripMarky_attributes [("id", "intro"); ("class", "lead")]%string) eq_refl).
Defined.

Lemma stripMarky_fixed (a : attrs) :
  hasMarkyId (Elem "x" a []) = false -> stripMarky a = a.
Proof.
  unfold hasMarkyId, stripMarky. cbn [attrOf].
  destruct (getAttr "id" a) as [v|]; intros H; [now rewrite H | reflexivity].
Qed.

Lemma mapAttrs_stripMarky_fixed (n : node) :
  everyNode (fun m => negb (hasMarkyId m)) n = true -> mapAttrs stripMarky n = n.
Proof.
  induction n as [s|t a ch IH] using node_ind'; [reflexivity|].
  rewrite everyNode_Elem. intros H. apply andb_prop in H as [Hn Hch].
  cbn [mapAttrs]. apply negb_true_iff in Hn.
  rewrite (stripMarky_fixed a Hn). f_equal.
  rewrite forallb_forall in Hch. rewrite Forall_forall in IH.
  rewrite <- (map_id ch) at 2. apply map_ext_in.
  intros x Hx. apply IH; auto.
Qed.

Lemma unwrapHeaderLinks_fixed (n : node) :
  forall under,
    everyNode (fun m => negb (isHeadingWithAnchor m)) n = true ->
    (under = true -> nameIs "a" n = false) ->
    unwrapHeaderLinks under n = [n].
Proof.
  induction n as [s|t a ch IH] using node_ind'; intros under H Hu; [reflexivity|].
  rewrite everyNode_Elem in H. apply andb_prop in H as [Hn Hch].
  cbn [unwrapHeaderLinks].
  assert (under && (t =? "a")%string = false) as ->.
  { destruct under; [|reflexivity]. exact (Hu eq_refl). }
  do 2 f_equal. apply negb_true_iff in Hn. cbn [isHeadingWithAnchor] in Hn.
  rewrite forallb_forall in Hch.
  assert (forall x, In x ch -> isHeaderNotH3 t = true -> nameIs "a" x = false) as Hanch.
  { intros x Hx Ht. rewrite Ht in Hn. cbn [andb] in Hn.
    destruct (nameIs "a" x) eqn:E; [|reflexivity].
    assert (existsb (nameIs "a") ch = true) by (apply existsb_exists; now exists x).
    congruence. }
  rewrite Forall_forall in IH. apply flat_map_fixed.
  intros x Hx. apply IH; auto.
Qed.

(** X5.  [removeMarkyAttributes] changes nothing in a document where no
    [id] starts with [user-content-] and no heading other than [h3] has an
    anchor among its children; in particular anchors in [h3] headings
    stay. *)
Theorem removeMarkyAttributes_fixed (d : forest) :
  everyNodeOf (fun m => negb (hasMarkyId m)) d = true ->
  everyNodeOf (fun m => negb (isHeadingWithAnchor m)) d = true ->
  removeMarkyAttributes d = d.
Proof.
  unfold everyNodeOf, removeMarkyAttributes.
  induction d as [|x r IH]; [reflexivity|].
  cbn [forallb map flat_map]. intros H1 H2.
  apply andb_prop in H1 as [Hx1 Hr1]. apply andb_prop in H2 as [Hx2 Hr2].
  rewrite (mapAttrs_stripMarky_fixed x Hx1).
  rewrite (unwrapHeaderLinks_fixed x false Hx2) by discriminate.
  now rewrite IH.
Qed.

Lemma removeMarkyAttributes_fixed_witness :
  removeMarkyAttributes
    [Elem "h3" [("id", "chunk")] [Elem "a" [("href", "#chunk")] [Text "chunk"]]]
  = [Elem "h3" [("id", "chunk")] [Elem "a" [("href", "#chunk")] [Text "chunk"]]]%string.
Proof.
  exact (removeMarkyAttributes_fixed
           [Elem "h3" [("id", "chunk")] [Elem "a" [("href", "#chunk")] [Text "chunk"]]]%string
           eq_refl eq_refl).
Defined.

(** ** renameLodashId *)

Lemma renameId_id (a : attrs) :
  match getAttr "id" (renameId a) with
  | Some v => (v =? "_")%string
  | None => false
  end = false.
Proof.
  unfold renameId. destruct (getAttr "id" a) as [v|] eqn:E; [|now rewrite E].
  destruct (v =? "_")%string eqn:Ev.
  - cbn [attrSet]. now rewrite getAttr_setAttr_same.
  - now rewrite E.
Qed.

Lemma renameHref_href (a : attrs) :
  match getAttr "href" (renameHref a) with
  | Some v => (v =? "#_")%string
  | None => false
  end = false.
Proof.
  unfold renameHref. destruct (getAttr "href" a) as [v|] eqn:E; [|now rewrite E].
  destruct (v =? "#_")%string eqn:Ev.
  - cbn [attrSet]. now rewrite getAttr_setAttr_same.
  - now rewrite E.
Qed.

Lemma rename_no_reference (n : node) :
  everyNode (fun m => negb (refersToUnderscore m))
            (mapAttrs (fun a => renameHref (renameId a)) n) = true.
Proof.
  induction n as [s|t a ch IH] using node_ind'; [reflexivity|].
  cbn [mapAttrs]. rewrite everyNode_Elem. unfold refersToUnderscore at 1.
  cbn [attrOf]. rewrite getAttr_id_renameHref, renameId_id, renameHref_href.
  cbn [orb negb andb].
  rewrite forallb_forall. intros y Hy. apply in_map_iff in Hy as (x & <- & Hx).
  rewrite Forall_forall in IH. now apply IH.
Qed.

(** X6.  After [renameLodashId] no element has the [id] [_] and no element
    has the [href] [#_]. *)
Theorem renameLodashId_leaves_no_reference (d : forest) :
  everyNodeOf (fun m => negb (refersToUnderscore m)) (renameLodashId d) = true.
Proof.
  rewrite renameLodashId_map. unfold everyNodeOf.
  rewrite forallb_forall. intros y Hy. apply in_map_iff in Hy as (x & <- & _).
  apply rename_no_reference.
Qed.

Lemma rename_fixed (n : node) :
  everyNode (fun m => negb (refersToUnderscore m)) n = true ->
  mapAttrs (fun a => renameHref (renameId a)) n = n.
Proof.
  induction n as [s|t a ch IH] using node_ind'; [reflexivity|].
  rewrite everyNode_Elem. intros H. apply andb_prop in H as [Hn Hch].
  apply negb_true_iff in Hn. unfold refersToUnderscore in Hn. cbn [attrOf] in Hn.
  apply orb_false_iff in Hn as [Hid Hhref].
  cbn [mapAttrs].
  assert (renameId a = a) as ->.
  { unfold renameId. destruct (getAttr "id" a); [now rewrite Hid | reflexivity]. }
  assert (renameHref a = a) as ->.
  { unfold renameHref. destruct (getAttr "href" a); [now rewrite Hhref | reflexivity]. }
  f_equal. rewrite forallb_forall in Hch. rewrite Forall_forall in IH.
  rewrite <- (map_id ch) at 2. apply map_ext_in. intros x Hx. apply IH; auto.
Qed.

(** X7.  [renameLodashId] is idempotent. *)
Theorem renameLodashId_idempotent (d : forest) :
  renameLodashId (renameLodashId d) = renameLodashId d.
Proof.
  rewrite !renameLodashId_map.
  rewrite <- (map_id (map _ d)) at 2. apply map_ext_in.
  intros y Hy. apply in_map_iff in Hy as (x & <- & _).
  apply rename_fixed, rename_no_reference.
Qed.

Lemma map_fst_setAttr (k v : string) (a : attrs) :
  getAttr k a <> None -> map fst (setAttr k v a) = map fst a.
Proof.
  induction a as [|[k0 v0] a IH]; cbn [getAttr setAttr]; [congruence|].
  destruct (k0 =? k)%string eqn:E.
  - intros _. apply String.eqb_eq in E. now subst.
  - intros H. cbn [map fst]. now rewrite IH.
Qed.

(** X8.  On the attributes of one element [renameLodashId] turns the [id]
    [_] into [lodash] and the [href] [#_] into [#lodash]; every other
    attribute keeps its value, and no attribute is added, removed or moved. *)
Theorem rename_attributes (a : attrs) :
  (getAttr "id" a = Some "_"%string ->
     getAttr "id" (renameHref (renameId a)) = Some "lodash"%string)
  /\ (getAttr "href" a = Some "#_"%string ->
        getAttr "href" (renameHref (renameId a)) = Some "#lodash"%string)
  /\ (forall k v, getAttr k a = Some v ->
                  ~ (k = "id"%string /\ v = "_"%string) ->
                  ~ (k = "href"%string /\ v = "#_"%string) ->
                  getAttr k (renameHref (renameId a)) = Some v)
  /\ map fst (renameHref (renameId a)) = map fst a.
Proof.
  assert (forall b k v, k <> "href"%string -> getAttr k b = Some v ->
                        getAttr k (renameHref b) = Some v) as Hh1.
  { intros b k v Hk Hv. unfold renameHref.
    destruct (getAttr "href" b); [|exact Hv].
    destruct (_ =? "#_")%string; [|exact Hv].
    cbn [attrSet]. now rewrite getAttr_setAttr_other. }
  assert (forall b k v, k <> "id"%string -> getAttr k b = Some v ->
                        getAttr k (renameId b) = Some v) as Hi1.
  { intros b k v Hk Hv. unfold renameId.
    destruct (getAttr "id" b); [|exact Hv].
    destruct (_ =? "_")%string; [|exact Hv].
    cbn [attrSet]. now rewrite getAttr_setAttr_other. }
  split; [|split; [|split]].
  - intros H. apply Hh1; [discriminate|]. unfold renameId. rewrite H.
    cbn. apply getAttr_setAttr_same.
  - intros H. unfold renameHref.
    rewrite (Hi1 a "href"%string "#_"%string) by (discriminate || exact H).
    cbn. apply getAttr_setAttr_same.
  - intros k v Hv Hnid Hnhref.
    destruct (String.eqb_spec k "id") as [->|Hkid].
    + apply Hh1; [discriminate|]. unfold renameId. rewrite Hv.
      destruct (v =? "_")%string eqn:E; [|exact Hv].
      apply String.eqb_eq in E. exfalso. now apply Hnid.
    + destruct (String.eqb_spec k "href") as [->|Hkh].
      * unfold renameHref. rewrite (Hi1 a "href"%string v) by (discriminate || exact Hv).
        destruct (v =? "#_")%string eqn:E; [|now apply Hi1].
        apply String.eqb_eq in E. exfalso. now apply Hnhref.
      * apply Hh1; [exact Hkh|]. now apply Hi1.
  - assert (map fst (renameId a) = map fst a) as Hi.
    { unfold renameId. destruct (getAttr "id" a) eqn:E; [|reflexivity].
      destruct (_ =? "_")%string; [|reflexivity].
      cbn [attrSet]. apply map_fst_setAttr. congruence. }
    rewrite <- Hi. unfold renameHref.
    destruct (getAttr "href" (renameId a)) eqn:E; [|reflexivity].
    destruct (_ =? "#_")%string; [|reflexivity].
    cbn [attrSet]. apply map_fst_setAttr. congruence.
Qed.

Lemma rename_attributes_witness :
  getAttr "id" (renameHref (renameId [("class", "c"); ("id", "_")])) = Some "lodash"%string
  /\ getAttr "class" (renameHref (renameId [("class", "c"); ("id", "_")])) = Some "c"%string.
Proof.
  destruct (rename_attributes [("class", "c"); ("id", "_")]%string) as (Hid & _ & Hk & _).
  split.
  - exact (Hid eq_refl).
  - apply (Hk "class"%string "c"%string eq_refl); intros [H _]; discriminate H.
Defined.

(** ** autoLink *)

Lemma textOf_autoLinkNode (n : node) :
  forall b, textOf (autoLinkNode b n) = textOf n.
Proof.
  induction n as [s|t a ch IH] using node_ind'; intros b; [reflexivity|].
  cbn [autoLinkNode]. destruct (b && (t =? "code")%string && isMethodRef (html ch)) eqn:E.
  - apply andb_prop in E as [_ Href]. pose proof Href as Hspec.
    apply isMethodRef_spec in Hspec as (id & Hid & _ & Hw).
    destruct (html_refChars ch (isMethodRef_refChars _ Href)) as [_ Htxt].
    rewrite textOf_Elem, Htxt, Hid, (methodId_ref id Hw). unfold methodLink.
    cbn [textOf]. now rewrite !append_empty_r.
  - rewrite !textOf_Elem. apply text_map.
    eapply Forall_impl; [|exact IH]. intros x Hx. apply Hx.
Qed.

(** X9.  [autoLink] never changes the text of the document: the anchor it
    puts in holds the text of the [code] element it replaces. *)
Theorem autoLink_keeps_text (d : forest) : text (autoLink d) = text d.
Proof.
  unfold autoLink. apply text_map, Forall_forall.
  intros n _. apply textOf_autoLinkNode.
Qed.

Lemma autoLinkNode_outside (n : node) :
  everyNode (fun m => negb (hasClass "doc-container" m)) n = true ->
  autoLinkNode false n = n.
Proof.
  induction n as [s|t a ch IH] using node_ind'; [reflexivity|].
  rewrite everyNode_Elem. cbn [hasClass]. intros H.
  apply andb_prop in H as [Hn Hch]. apply negb_true_iff in Hn.
  cbn [autoLinkNode andb orb]. rewrite Hn. f_equal.
  rewrite forallb_forall in Hch. rewrite Forall_forall in IH.
  rewrite <- (map_id ch) at 2. apply map_ext_in. intros x Hx. apply IH; auto.
Qed.

(** X10.  [autoLink] changes nothing in a document without an element of
    class [doc-container], whatever its [code] elements hold. *)
Theorem autoLink_needs_container (d : forest) :
  everyNodeOf (fun m => negb (hasClass "doc-container" m)) d = true ->
  autoLink d = d.
Proof.
  unfold everyNodeOf, autoLink. intros H. rewrite forallb_forall in H.
  rewrite <- (map_id d) at 2. apply map_ext_in.
  intros x Hx. apply autoLinkNode_outside. now apply H.
Qed.

Lemma autoLink_needs_container_witness :
  autoLink [Elem "p" [("class", "intro")] [Elem "code" [] [Text "_.map"]]]
  = [Elem "p" [("class", "intro")] [Elem "code" [] [Text "_.map"]]]%string.
Proof.
  exact (autoLink_needs_container
           [Elem "p" [("class", "intro")] [Elem "code" [] [Text "_.map"]]]%string eq_refl).
Defined.

(** X11.  A run of [autoLink] adds exactly one anchor for every [code]
    element that qualifies, and removes none. *)
Theorem autoLink_adds_one_anchor_each (d : forest) :
  list_sum (map anchors (autoLink d))
  = list_sum (map anchors d) + list_sum (map (qualifying false) d).
Proof.
  unfold autoLink. induction d as [|x r IH]; [reflexivity|].
  simpl in *. rewrite anchors_autoLinkNode. lia.
Qed.

(** ** repairMarkyHeaders *)

Lemma isEmptyP_text (x : node) : isEmptyP x = true -> textOf x = ""%string.
Proof.
  unfold isEmptyP, isEmpty. intros H.
  destruct x as [s|t a ch]; [discriminate H|]. apply andb_prop in H as [_ H].
  rewrite textOf_Elem. cbn [childrenOf] in H.
  induction ch as [|c ch IH]; [reflexivity|].
  cbn [forallb] in H. apply andb_prop in H as [Hc Hch].
  destruct c as [s|? ? ?]; [|discriminate Hc].
  apply String.eqb_eq in Hc. subst s. cbn [text textOf]. now rewrite IH.
Qed.

Lemma dropLead_text (f : node -> node) (l : forest) :
  Forall (fun x => textOf (f x) = textOf x) l -> text (dropLead f l) = text l.
Proof.
  induction 1 as [|x r Hx _ IH]; [reflexivity|].
  change (dropLead f (x :: r))
    with (if isEmptyP x && nextIsH3 r then dropLead f r else f x :: dropLead f r).
  destruct (isEmptyP x) eqn:E; cbn [andb].
  - destruct (nextIsH3 r); cbn [text]; rewrite ?Hx, IH;
      [now rewrite (isEmptyP_text x E) | reflexivity].
  - cbn [text]. now rewrite Hx, IH.
Qed.

Lemma textOf_dropLeadNode (n : node) : textOf (dropLeadNode n) = textOf n.
Proof.
  induction n as [s|t a ch IH] using node_ind'; [reflexivity|].
  cbn [dropLeadNode]. rewrite !textOf_Elem. now apply dropLead_text.
Qed.

(** X12.  The first repair removes only paragraphs without text: the text
    of the document stays the same. *)
Theorem removeLeadingParagraphs_keeps_text (d : forest) :
  text (removeLeadingParagraphs d) = text d.
Proof.
  unfold removeLeadingParagraphs. apply text_map, Forall_forall.
  intros n _. apply textOf_dropLeadNode.
Qed.

Lemma walkBack_text (before : forest) :
  forall cur moved kept mv,
    walkBack cur before moved = (kept, mv) ->
    (text (rev kept) ++ text mv
     = text (rev before) ++ textOf cur ++ text moved)%string.
Proof.
  induction before as [|n b IH]; intros cur moved kept mv H.
  - cbn [walkBack] in H. injection H as <- <-. cbn [rev app text].
    now rewrite append_empty_r.
  - cbn [walkBack] in H. destruct (isBoundary n).
    + injection H as <- <-. cbn [rev]. rewrite (text_app _ [cur]), text_single.
      now rewrite append_assoc.
    + apply IH in H. rewrite H. cbn [rev text].
      rewrite text_app, text_single. now rewrite !append_assoc.
Qed.

Lemma textOf_prependTo (xs : forest) (p : node) :
  isTag p = true -> textOf (prependTo xs p) = (text xs ++ textOf p)%string.
Proof.
  destruct p as [s|t a ch]; [discriminate|]. intros _.
  cbn [prependTo]. now rewrite !textOf_Elem, text_app.
Qed.

Lemma walkSiblings_text (l : list (bool * node)) :
  forall seen done,
    Forall (fun fx => fst fx = true ->
                      textOf (snd fx) = ""%string /\ isTag (snd fx) = true) l ->
    text (walkSiblings seen done l) = (text (rev done) ++ text (map snd l))%string.
Proof.
  induction l as [|[f x] r IH]; intros seen done Hl.
  - cbn [walkSiblings map text]. now rewrite append_empty_r.
  - inversion Hl as [|? ? Hx Hr]; subst. cbn [fst snd] in Hx.
    cbn [walkSiblings map text snd].
    destruct (f && seen) eqn:E.
    + apply andb_prop in E as [Hf _]. destruct (Hx Hf) as [Htx Htag].
      rewrite Htx. cbn [append]. destruct done as [|prev before].
      * rewrite IH by exact Hr. cbn [rev app text]. now rewrite Htx.
      * destruct (walkBack prev before []) as [kept mv] eqn:Hw.
        rewrite IH by exact Hr. f_equal.
        apply walkBack_text in Hw. cbn [text] in Hw.
        rewrite append_empty_r in Hw.
        cbn [rev]. rewrite !text_app, !text_single.
        rewrite (textOf_prependTo mv x Htag), Htx, append_empty_r.
        exact Hw.
    + rewrite IH by exact Hr. cbn [rev].
      rewrite text_app, text_single. now rewrite append_assoc.
Qed.

Lemma textOf_fillTrailingNode (n : node) :
  textOf (fillTrailingNode n) = textOf n /\ isTag (fillTrailingNode n) = isTag n.
Proof.
  induction n as [s|t a ch IH] using node_ind'; [now split|].
  split; [|reflexivity]. cbn [fillTrailingNode]. rewrite !textOf_Elem.
  rewrite walkSiblings_text.
  - cbn [rev text append]. rewrite map_map. cbn [snd].
    apply text_map. eapply Forall_impl; [|exact IH]. now intros x [Hx _].
  - rewrite Forall_forall in IH |- *. intros fx Hfx.
    apply in_map_iff in Hfx as (c & <- & Hc). cbn [fst snd]. intros He.
    destruct (IH c Hc) as [Ht Hg]. rewrite Ht, Hg. split.
    + now apply isEmptyP_text.
    + destruct c; [discriminate He | reflexivity].
Qed.

(** X13.  The second repair moves nodes into the empty paragraph that
    follows them and keeps their order: the text of the document, read from
    left to right, stays the same. *)
Theorem fillTrailingParagraphs_keeps_text (d : forest) :
  text (fillTrailingParagraphs d) = text d.
Proof.
  unfold fillTrailingParagraphs. apply text_map, Forall_forall.
  intros n _. apply textOf_fillTrailingNode.
Qed.

Lemma dropLead_fixed (f : node -> node) (l : forest) :
  (forall x, In x l -> isEmptyP x = false /\ f x = x) -> dropLead f l = l.
Proof.
  induction l as [|x r IH]; [reflexivity|]. intros H.
  change (dropLead f (x :: r))
    with (if isEmptyP x && nextIsH3 r then dropLead f r else f x :: dropLead f r).
  destruct (H x (or_introl eq_refl)) as [-> ->]. cbn [andb].
  rewrite IH by (intros y Hy; apply H; now right). reflexivity.
Qed.

Lemma walkSiblings_unmatched (l : list (bool * node)) :
  forall seen done,
    Forall (fun fx => fst fx = false) l ->
    walkSiblings seen done l = rev done ++ map snd l.
Proof.
  induction l as [|[f x] r IH]; intros seen done Hl.
  - cbn [walkSiblings map]. now rewrite app_nil_r.
  - inversion Hl as [|? ? Hx Hr]; subst. cbn [fst] in Hx. subst f.
    cbn [walkSiblings andb map snd]. rewrite IH by exact Hr.
    cbn [rev]. now rewrite <- app_assoc.
Qed.

Lemma repair_nodes_fixed (parseHtml : string -> forest) (n : node) :
  everyNode (fun m => negb (isEmptyP m) && negb (nameIs "em" m)) n = true ->
  dropLeadNode n = n /\ fillTrailingNode n = n
  /\ forall h c, flattenEmNode parseHtml h c n = n.
Proof.
  induction n as [s|t a ch IH] using node_ind'; [now repeat split|].
  rewrite everyNode_Elem. intros H. apply andb_prop in H as [_ Hch].
  rewrite forallb_forall in Hch. rewrite Forall_forall in IH.
  assert (forall x, In x ch -> isEmptyP x = false /\ nameIs "em" x = false) as Hloc.
  { intros x Hx. specialize (Hch x Hx). destruct x as [s|u b c]; [now split|].
    rewrite everyNode_Elem in Hch. apply andb_prop in Hch as [Hp _].
    apply andb_prop in Hp as [Hp He].
    now rewrite negb_true_iff in Hp, He. }
  repeat split.
  - cbn [dropLeadNode]. f_equal. apply dropLead_fixed.
    intros x Hx. split; [apply Hloc, Hx | apply IH; auto].
  - cbn [fillTrailingNode]. f_equal. rewrite walkSiblings_unmatched.
    + cbn [rev app]. rewrite map_map. cbn [snd].
      rewrite <- (map_id ch) at 2. apply map_ext_in.
      intros x Hx. apply IH; auto.
    + apply Forall_forall. intros fx Hfx.
      apply in_map_iff in Hfx as (x & <- & Hx). apply Hloc, Hx.
  - intros h c. cbn [flattenEmNode].
    assert (existsb (nameIs "em") ch = false) as ->.
    { destruct (existsb (nameIs "em") ch) eqn:E; [|reflexivity].
      apply existsb_exists in E as (x & Hx & He).
      destruct (Hloc x Hx) as [_ Hn]. congruence. }
    rewrite andb_false_r. f_equal.
    rewrite <- (map_id ch) at 2. apply map_ext_in.
    intros x Hx. apply IH; auto.
Qed.

(** X14.  [repairMarkyHeaders] changes nothing in a document that has no
    empty paragraph and no [em] element, whatever the parser is. *)
Theorem repairMarkyHeaders_fixed (parseHtml : string -> forest) (d : forest) :
  everyNodeOf (fun m => negb (isEmptyP m) && negb (nameIs "em" m)) d = true ->
  repairMarkyHeaders parseHtml d = d.
Proof.
  unfold everyNodeOf. intros H. rewrite forallb_forall in H.
  unfold repairMarkyHeaders, flattenEmphasis, fillTrailingParagraphs,
    removeLeadingParagraphs.
  rewrite !map_map. rewrite <- (map_id d) at 2. apply map_ext_in. intros x Hx.
  destruct (repair_nodes_fixed parseHtml x (H x Hx)) as (-> & -> & Hf). apply Hf.
Qed.

Lemma repairMarkyHeaders_fixed_witness :
  repairMarkyHeaders plainParser
    [sampleHeading; Elem "p" [] [Text "x"; Elem "code" [] [Text "y"]]]
  = [sampleHeading; Elem "p" [] [Text "x"; Elem "code" [] [Text "y"]]]%string.
Proof.
  exact (repairMarkyHeaders_fixed plainParser
           [sampleHeading; Elem "p" [] [Text "x"; Elem "code" [] [Text "y"]]]%string
           eq_refl).
Defined.

(** ** tidyHighlights *)


Lemma tidyNode_outside (parseHtml : string -> forest) (n : node) :
  everyNode (fun m => negb (isContainer m)) n = true ->
  tidyNode parseHtml n = Returned n.
Proof.
  induction n as [s|t a ch IH] using node_ind'; [reflexivity|].
  rewrite everyNode_Elem. unfold isContainer at 1. cbn [hasClass]. intros H.
  apply andb_prop in H as [Hn Hch]. apply negb_true_iff in Hn.
  cbn [tidyNode]. rewrite Hn.
  assert (mapO (tidyNode parseHtml) ch = Returned ch) as ->; [|reflexivity].
  rewrite forallb_forall in Hch. rewrite Forall_forall in IH.
  clear Hn. induction ch as [|x r IHr]; [reflexivity|].
  cbn [mapO]. rewrite (IH x) by (now left || (apply Hch; now left)).
  rewrite IHr; [reflexivity | |];
    intros y Hy; [apply IH | apply Hch]; now right.
Qed.

(** X16.  [tidyHighlights] returns the document as it is when no element
    carries the class [highlight]: marker classes and classless spans
    outside a highlight container are not touched. *)
Theorem tidyHighlights_needs_container (parseHtml : string -> forest) (d : forest) :
  everyNodeOf (fun m => negb (isContainer m)) d = true ->
  tidyHighlights parseHtml d = Returned d.
Proof.
  unfold everyNodeOf, tidyHighlights. intros H. rewrite forallb_forall in H.
  induction d as [|x r IH]; [reflexivity|].
  cbn [mapO]. rewrite (tidyNode_outside parseHtml x) by (apply H; now left).
  rewrite IH by (intros y Hy; apply H; now right). reflexivity.
Qed.

Lemma tidyHighlights_needs_container_witness :
  tidyHighlights plainParser
    [Elem "p" [] [Elem "span" [] [Text "a"]; Elem "span" [("class", "source js")] []]]
  = Returned
      [Elem "p" [] [Elem "span" [] [Text "a"]; Elem "span" [("class", "source js")] []]]%string.
Proof.
  exact (tidyHighlights_needs_container plainParser
           [Elem "p" [] [Elem "span" [] [Text "a"]; Elem "span" [("class", "source js")] []]]%string
           eq_refl).
Defined.

Lemma uniq_sound (l : list string) :
  forall seen x, In x (uniq seen l) -> In x l /\ strIn x seen = false.
Proof.
  induction l as [|z l IH]; intros seen x Hin; [destruct Hin|].
  cbn [uniq] in Hin. destruct (strIn z seen) eqn:E.
  - destruct (IH _ _ Hin) as [H1 H2]. split; [now right | exact H2].
  - destruct Hin as [<-|Hin]; [split; [now left | exact E]|].
    destruct (IH _ _ Hin) as [H1 H2]. split; [now right|].
    unfold strIn in H2 |- *. cbn [existsb] in H2.
    now apply orb_false_iff in H2 as [_ H2].
Qed.

Lemma uniq_NoDup (l : list string) : forall seen, NoDup (uniq seen l).
Proof.
  induction l as [|z l IH]; intros seen; [constructor|].
  cbn [uniq]. destruct (strIn z seen); [apply IH|].
  constructor; [|apply IH]. intros Hin.
  destruct (uniq_sound l _ _ Hin) as [_ H].
  unfold strIn in H. cbn [existsb] in H. now rewrite String.eqb_refl in H.
Qed.

(** X17.  After the class-whitelisting step an element has a [class] only
    if it had one; the value is not empty, and its tokens are whitelisted
    for the extension, occurred in the old value, and occur once. *)
Theorem whitelist_keeps_whitelisted_only (ext : string) (a : attrs) (v : string) :
  getAttr "class" (whitelist ext a) = Some v ->
  exists old, getAttr "class" a = Some old
              /\ v <> ""%string
              /\ NoDup (tokens v)
              /\ forall tok, In tok (tokens v) ->
                             In tok (highlights ext) /\ In tok (split " " old).
Proof.
  unfold whitelist. destruct (getAttr "class" a) as [old|] eqn:E;
    [|intros H; rewrite E in H; discriminate H].
  set (inter := intersection (split " " old) (highlights ext)).
  destruct (join " " inter =? "")%string eqn:Ej; cbn [attrSet].
  - rewrite getAttr_removeAttr_same. discriminate.
  - rewrite getAttr_setAttr_same. intros [= <-]. exists old.
    assert (forallb isWord inter = true) as Hw.
    { rewrite forallb_forall. intros x Hx.
      pose proof (highlights_words ext) as Hh. rewrite forallb_forall in Hh.
      apply Hh, strIn_In, (intersection_incl _ _ _ Hx). }
    rewrite (tokens_join inter Hw). repeat split.
    + intros Hv. rewrite Hv in Ej. discriminate Ej.
    + apply uniq_NoDup.
    + apply strIn_In, (intersection_incl _ _ _ H).
    + destruct (uniq_sound _ _ _ H) as [Hf _]. now apply filter_In in Hf as [Hf _].
Qed.

Lemma whitelist_keeps_whitelisted_only_witness :
  exists old, getAttr "class" [("class", "storage modifier js modifier")] = Some old
              /\ "modifier"%string <> ""%string
              /\ NoDup (tokens "modifier")
              /\ forall tok, In tok (tokens "modifier") ->
                             In tok (highlights "js") /\ In tok (split " " old).
Proof.
  exact (whitelist_keeps_whitelisted_only "js"
           [("class", "storage modifier js modifier")]%string "modifier" eq_refl).
Defined.

Lemma dedupNode_fixed (cls : string) (n : node) :
  pairFree cls n = true -> dedupNode cls n = n.
Proof.
  induction n as [s|t a ch IH] using node_ind'; [reflexivity|].
  cbn [pairFree dedupNode]. intros H. apply andb_prop in H as [Hn Hch].
  apply negb_true_iff in Hn. rewrite Hn. f_equal.
  rewrite forallb_forall in Hch. rewrite Forall_forall in IH.
  rewrite <- (map_id ch) at 2. apply map_ext_in. intros x Hx. apply IH; auto.
Qed.

(** X19.  The step "Collapse nested highlights" is idempotent. *)
Theorem dedupHighlights_idempotent (n : node) :
  dedupHighlights (dedupHighlights n) = dedupHighlights n.
Proof.
  unfold dedupHighlights.
  set (m := dedupNode "string" (dedupNode "comment" n)).
  assert (pairFree "comment" m = true) as Hc
    by apply pairFree_kept, pairFree_dedupNode.
  assert (pairFree "string" m = true) as Hs by apply pairFree_dedupNode.
  now rewrite (dedupNode_fixed "comment" m Hc), (dedupNode_fixed "string" m Hs).
Qed.

(** ** removeMarkyAttributes and the text *)



(** ** build: the header *)

Lemma find_app_node (p : node -> bool) (l r : list node) :
  find p (l ++ r) = match find p l with Some x => Some x | None => find p r end.
Proof.
  induction l as [|x l IH]; [reflexivity|].
  cbn [app find]. destruct (p x); [reflexivity | exact IH].
Qed.

Lemma cutFirst_spec (f : node -> option node * forest) (l : forest) :
  Forall (fun x => fst (f x) = find (nameIs "h1") (descendantsOf x)
                   /\ (fst (f x) = None -> snd (f x) = [x])) l ->
  fst (cutFirst f l) = find (nameIs "h1") (descendants l)
  /\ (fst (cutFirst f l) = None -> snd (cutFirst f l) = l).
Proof.
  induction 1 as [|x r [Hx1 Hx2] _ [IH1 IH2]]; [now split|].
  change (cutFirst f (x :: r))
    with (match f x with
          | (Some h, xs) => (Some h, xs ++ r)
          | (None, xs) => let '(h, rs) := cutFirst f r in (h, xs ++ rs)
          end).
  cbn [descendants]. rewrite find_app_node, <- Hx1, <- IH1.
  destruct (f x) as [[h|] xs]; cbn [fst snd] in *.
  - split; [reflexivity | discriminate].
  - rewrite (Hx2 eq_refl). destruct (cutFirst f r) as [h rs]. cbn [fst snd] in *.
    split; [reflexivity|]. intros Hh. now rewrite (IH2 Hh).
Qed.

Lemma cutH1Node_spec (n : node) :
  fst (cutH1Node n) = find (nameIs "h1") (descendantsOf n)
  /\ (fst (cutH1Node n) = None -> snd (cutH1Node n) = [n]).
Proof.
  induction n as [s|t a ch IH] using node_ind'; [now split|].
  rewrite descendantsOf_Elem. cbn [cutH1Node find nameIs].
  destruct (t =? "h1")%string; [split; [reflexivity | discriminate]|].
  destruct (cutFirst_spec cutH1Node ch IH) as [H1 H2].
  destruct (cutFirst cutH1Node ch) as [h ch']. cbn [fst snd] in *.
  split; [exact H1|]. intros Hh. now rewrite (H2 Hh).
Qed.



Lemma removeFirstH1_none (d : forest) :
  find (nameIs "h1") (descendants d) = None -> removeFirstH1 d = (None, d).
Proof.
  intros Hn. unfold removeFirstH1.
  destruct (cutFirst_spec cutH1Node d) as [H1 H2];
    [apply Forall_forall; intros n _; apply cutH1Node_spec|].
  rewrite Hn in H1. specialize (H2 H1).
  destruct (cutFirst cutH1Node d) as [h d']. cbn [fst snd] in *. now subst.
Qed.

(** X23.  For a rendered document without [h1] the version is the empty
    string: [build] cleans the whole document, names the file [.html] and
    writes [version: null], or throws when [tidyHighlights] does. *)
Theorem build_without_header (parseHtml : string -> forest) (d : forest) :
  find (nameIs "h1") (descendants d) = None ->
  build parseHtml d
  = match cleanDocument parseHtml d with
    | Returned d' => Returned (".html"%string, page "" (html d'))
    | Threw => Threw
    | Beyond => Beyond
    end.
Proof.
  intros Hn. unfold build. now rewrite (removeFirstH1_none d Hn).
Qed.

Lemma build_without_header_witness :
  build plainParser sampleNestedContainers = Threw.
Proof.
  exact (build_without_header plainParser sampleNestedContainers eq_refl).
Defined.

Open Scope string_scope.

(** * The passes on whole documents *)

Open Scope list_scope.

(** ** repairMarkyHeaders: the empty paragraph before a heading *)
















(** ** repairMarkyHeaders: the empty paragraph after a heading *)






Section TrailingWalk.

Variables (pre post : forest) (h p : node).
Hypothesis pre_unselected : Forall (fun n => isEmptyP n = false) pre.
Hypothesis post_unselected : Forall (fun n => isEmptyP n = false) post.
Hypothesis h_heading : nameIs "h3" h = true.
Hypothesis p_empty : isEmptyP p = true.




End TrailingWalk.




(** ** autoLink: the code elements of the document *)

Lemma nodeAt_below (path : list nat) (i : nat) (ch : forest) (n : node) :
  nodeAt (i :: path) ch = Some n -> isTag n = true ->
  ~ Forall isText ch.
Proof.
  revert i ch. induction path as [|j rest IH]; intros i ch H Hn Hall.
  - cbn [nodeAt] in H. destruct (nth_error ch i) as [m|] eqn:E; [|discriminate H].
    injection H as ->. apply nth_error_In in E.
    rewrite Forall_forall in Hall. specialize (Hall n E).
    unfold isText in Hall. congruence.
  - cbn [nodeAt] in H. destruct (nth_error ch i) as [m|] eqn:E; [|discriminate H].
    destruct m as [s|t a c].
    + cbn [childrenOf nodeAt] in H. destruct j; discriminate H.
    + apply nth_error_In in E. rewrite Forall_forall in Hall.
      specialize (Hall _ E). discriminate Hall.
Qed.

(** What stands, after the run, in the place of a [code] element of the
    document. *)
Lemma nodeAt_autoLink (path : list nat) :
  forall (d : forest) (b : bool) (a : attrs) (ch : forest),
    nodeAt path d = Some (Elem "code" a ch) ->
    nodeAt path (map (autoLinkNode b) d)
    = Some (autoLinkNode (b || inContainer path d) (Elem "code" a ch)).
Proof.
  induction path as [|i rest IH]; intros d b a ch H; [discriminate H|].
  cbn [nodeAt inContainer] in H |- *. rewrite nth_error_map.
  destruct (nth_error d i) as [n|] eqn:E; [|discriminate H].
  cbn [option_map]. destruct rest as [|j rest'].
  - injection H as ->. now rewrite orb_false_r.
  - destruct n as [s|t' a' ch']; [destruct j; discriminate H|].
    cbn [childrenOf] in H.
    assert (isMethodRef (html ch') = false) as Hno.
    { destruct (isMethodRef (html ch')) eqn:Href; [|reflexivity].
      destruct (html_refChars ch' (isMethodRef_refChars _ Href)) as [Hall _].
      now destruct (nodeAt_below rest' j ch' _ H eq_refl). }
    cbn [autoLinkNode]. rewrite Hno, andb_false_r. cbn [childrenOf hasClass].
    rewrite (IH ch' (b || hasClassA "doc-container" a') a ch H).
    now rewrite orb_assoc.
Qed.

(** C7, as the code has it.  The [code] element at [path] is replaced by
    an anchor exactly when an element above it carries the class
    [doc-container] and its content, written as HTML, is [_.] followed by
    word characters and nothing else.  Then the element holds text only,
    the [href] is [#] followed by the identifier after the dot, and the
    anchor holds one new [code] element, without attributes, with the same
    text.  In every other case a [code] element with the same attributes
    stands at [path] after the run; it is the same element when it holds
    text only. *)
Theorem autoLink_code (d : forest) (path : list nat) (a : attrs) (ch : forest) :
  nodeAt path d = Some (Elem "code" a ch) ->
  (inContainer path d = true /\ MethodRef (html ch) ->
     exists id, html ch = "_." ++ id /\ text ch = html ch /\ Forall isText ch /\
       nodeAt path (autoLink d)
       = Some (Elem "a" [("href", "#" ++ id)] [Elem "code" [] [Text (text ch)]]))%string
  /\ (~ (inContainer path d = true /\ MethodRef (html ch)) ->
        (exists ch', nodeAt path (autoLink d) = Some (Elem "code" a ch'))
        /\ (Forall isText ch -> nodeAt path (autoLink d) = Some (Elem "code" a ch))).
Proof.
  intros H. unfold autoLink. rewrite (nodeAt_autoLink path d false a ch H).
  cbn [orb].
  destruct (autoLinkNode_code (inContainer path d) a ch) as [Hyes Hno]. split.
  - intros Hq. destruct (Hyes Hq) as (id & Hid & Htxt & Hall & Hrun).
    exists id. now rewrite Hrun.
  - intros Hq. destruct (Hno Hq) as [Hrun Hsame]. split.
    + rewrite Hrun. eauto.
    + intros Hall. now rewrite (Hsame Hall).
Qed.

Lemma autoLink_code_witness :
  exists id,
    (html [Text "_.map"] = "_." ++ id /\ text [Text "_.map"] = html [Text "_.map"]
     /\ Forall isText [Text "_.map"]
     /\ nodeAt [0; 0; 1] (autoLink sampleReference)
        = Some (Elem "a" [("href", "#" ++ id)]
                  [Elem "code" [] [Text (text [Text "_.map"])]]))%string.
Proof.
  refine (proj1 (autoLink_code sampleReference [0; 0; 1] [("class", "ref")]
                   [Text "_.map"] eq_refl) _).
  split; [reflexivity|]. exists "map"%string.
  split; [reflexivity | split; [discriminate | reflexivity]].
Defined.

(** C7 fails as stated: the text of the [code] element is [_.map], its
    content as HTML is not, and the element stays. *)
Lemma autoLink_tests_markup :
  MethodRef (text [Elem "b" [] [Text "_.map"]])
  /\ autoLink [docContainer [Elem "code" [] [Elem "b" [] [Text "_.map"]]]]
     = [docContainer [Elem "code" [] [Elem "b" [] [Text "_.map"]]]].
Proof.
  split; [|reflexivity].
  exists "map"%string. split; [reflexivity | split; [discriminate | reflexivity]].
Qed.

(** ** removeMarkyAttributes: anchors in headings *)















(** ** tidyHighlights: an extension without whitelist *)









(** ** tidyHighlights: when it throws *)







Section Throws.

Variable parseHtml : string -> forest.



End Throws.




Open Scope string_scope.
